(** * Visual reviewer: capture, compare, report

    A shallow embedding of [ai-agents-py/reviewer/review.py]: the pixel
    comparison [mismatch_ratio], the Pass/Fail decision and the driver loop
    [main] that screenshots every viewport, compares it with its reference and
    writes the report.

    Images are rasters of rows of pixels; the file system is a finite map from
    paths to files; exceptions are an explicit result type and [main] threads
    the file system and an effect log through a small state-and-error monad.
    Ratios are exact rationals ([Q], reduced), standing for the floats of the
    source. *)

From Stdlib Require Import ZArith QArith Qreduction Lia.
From stdpp Require Import gmap strings list pretty.

Local Open Scope Z_scope.

(** ** Exceptions and results *)

Inductive exn : Type :=
| PlaywrightError
| FileNotFoundError (path : string)
| UnidentifiedImageError (path : string)
| ValueError
| ZeroDivisionError.

Inductive result (A : Type) : Type :=
| Ok (a : A)
| Raise (e : exn).
Arguments Ok {A} a.
Arguments Raise {A} e.

Definition rbind {A B} (r : result A) (k : A → result B) : result B :=
  match r with
  | Ok a => k a
  | Raise e => Raise e
  end.

(** ** Rasters *)

(** One RGBA pixel, channels as bytes. *)
Record pixel : Type := Px { chR : Z; chG : Z; chB : Z; chA : Z }.

Definition byte_ok (z : Z) : Prop := 0 ≤ z ≤ 255.

Definition pixel_ok (p : pixel) : Prop :=
  byte_ok (chR p) ∧ byte_ok (chG p) ∧ byte_ok (chB p) ∧ byte_ok (chA p).

(** A PIL image of one mode: [im_size] is [Image.size] = (width, height),
    [rows] the scan lines, top to bottom. *)
Record raster (A : Type) : Type := Raster { im_size : Z * Z; rows : list (list A) }.
Arguments Raster {A} im_size rows.
Arguments im_size {A} r.
Arguments rows {A} r.

Definition width {A} (im : raster A) : Z := (im_size im).1.
Definition height {A} (im : raster A) : Z := (im_size im).2.

(** [Image.getdata()]: the pixels in row-major order. *)
Definition getdata {A} (im : raster A) : list A := concat (rows im).

(** The scan lines agree with the declared size. *)
Definition wf_raster {A} (im : raster A) : Prop :=
  0 ≤ width im ∧ 0 ≤ height im ∧
  Z.of_nat (length (rows im)) = height im ∧
  Forall (λ row, Z.of_nat (length row) = width im) (rows im).

Definition wf_image (im : raster pixel) : Prop :=
  wf_raster im ∧ Forall (Forall pixel_ok) (rows im).

(** ** Pillow operations used by the reviewer *)

(** The CHOP macro of Pillow's Chops.c stores the operation's value clipped
    to a byte. *)
Definition clip8 (z : Z) : Z := Z.max 0 (Z.min 255 z).

Definition chop_difference (a b : Z) : Z := clip8 (Z.abs (a - b)).

Definition px_difference (p q : pixel) : pixel :=
  Px (chop_difference (chR p) (chR q)) (chop_difference (chG p) (chG q))
     (chop_difference (chB p) (chB q)) (chop_difference (chA p) (chA q)).

(** [ImageChops.difference]: band-wise absolute difference on the common
    region; the output is as wide and as high as the smaller operand. *)
Definition difference (im1 im2 : raster pixel) : raster pixel :=
  Raster (Z.min (width im1) (width im2), Z.min (height im1) (height im2))
         (zip_with (zip_with px_difference) (rows im1) (rows im2)).

(** [convert("L")] on an RGBA image (rgb2l of Convert.c): the ITU-R 601-2
    luma of the three colour bands in 16-bit fixed point, rounded, stored in
    a byte; the alpha band is not read. *)
Definition L24 (p : pixel) : Z :=
  chR p * 19595 + chG p * 38470 + chB p * 7471 + 32768.

Definition rgb2l (p : pixel) : Z := Z.shiftr (L24 p) 16 `mod` 256.

Definition convert_L (im : raster pixel) : raster Z :=
  Raster (im_size im) (map (map rgb2l) (rows im)).

(** Python's true division of two integers. *)
Definition truediv (n d : Z) : result Q :=
  if decide (d = 0) then Raise ZeroDivisionError
  else Ok (Qred (inject_Z n / inject_Z d)).

(** ** The metric as the specification words it *)

(** "At least one channel differs between the two images." *)
Definition any_channel_differs (p q : pixel) : Prop :=
  chR p ≠ chR q ∨ chG p ≠ chG q ∨ chB p ≠ chB q ∨ chA p ≠ chA q.

Definition differing_pixels (im1 im2 : raster pixel) : Z :=
  Z.of_nat (length (filter (λ pq, any_channel_differs pq.1 pq.2)
                      (zip (getdata im1) (getdata im2)))).

(** The number of pixels with a channel difference over the pixel count. *)
Definition spec_mismatch_ratio (im1 im2 : raster pixel) : result Q :=
  truediv (differing_pixels im1 im2) (width im1 * height im1).

(** ** The metric the code computes, pixel by pixel *)

(** The weighted colour difference of two pixels, in 1/65536 of a luma step. *)
Definition luma_weight (p q : pixel) : Z :=
  19595 * Z.abs (chR p - chR q) + 38470 * Z.abs (chG p - chG q)
  + 7471 * Z.abs (chB p - chB q).

(** The pixels whose weighted colour difference rounds to one luma step or
    more. *)
Definition luma_mismatch_count (im1 im2 : raster pixel) : Z :=
  Z.of_nat (length (filter (λ pq, 32768 ≤ luma_weight pq.1 pq.2)
                      (zip (getdata im1) (getdata im2)))).

(** ** Configuration, paths and the report *)

Definition OUT_DIR : string := "ai-agents-py/reviewer/artifacts".
Definition REF_DIR : string := "ai-agents-py/reviewer/reference".

(** [Path / name]. *)
Definition path_join (dir name : string) : string := dir +:+ "/" +:+ name.

Definition VIEWPORTS : list (string * Z * Z) :=
  [("desktop", 1440, 900); ("mobile", 390, 844)].

Definition actual_path (label : string) : string :=
  path_join OUT_DIR ("actual-" +:+ label +:+ ".png").
Definition diff_path (label : string) : string :=
  path_join OUT_DIR ("diff-" +:+ label +:+ ".png").
Definition ref_path (label : string) : string :=
  path_join REF_DIR (label +:+ ".png").
Definition report_path : string := path_join OUT_DIR "report.md".

Inductive status : Type := Fail | Pass.

Definition status_label (st : status) : string :=
  match st with
  | Fail => "❌ Fail"
  | Pass => "✅ Pass"
  end.

(** The strings appended to [report], by the f-string that builds them
    ({status} is [status_label st]):
    - [Title]: "# Visual Review Report\n";
    - [Skipped label ref]: "### {label}\nReference not found at {ref}. Skipping.\n";
    - [Compared label ratio st actual ref diffp]: "### {label}\n- Mismatch:
      **{pct}%** ({status})\n- Actual: {actual}\n- Reference: {ref}\n- Diff:
      {diffp}\n", where pct is [round(ratio * 100, 2)];
    - [Hints]: the fixed block that starts "\n---\n## Hints". *)
Inductive report_item : Type :=
| Title
| Skipped (label ref : string)
| Compared (label : string) (ratio : Q) (st : status) (actual ref diffp : string)
| Hints.

(** What a path holds: a decodable image (as [Image.open(..).convert("RGBA")]
    returns it), a report written by [write_text], or anything else. *)
Inductive file : Type :=
| FPng (im : raster pixel)
| FText (report : list report_item)
| FOther.

Inductive event : Type :=
| Wrote (path : string)
| Printed (line : string).

(** The world [main] acts on: the file system and the effects so far. *)
Record world : Type := World { fs : gmap string file; log : list event }.

(** ** State and exceptions *)

Definition M (A : Type) : Type := world → world * result A.

Definition ret {A} (a : A) : M A := λ σ, (σ, Ok a).

Definition bind {A B} (m : M A) (k : A → M B) : M B :=
  λ σ, match m σ with
       | (σ', Ok a) => k a σ'
       | (σ', Raise e) => (σ', Raise e)
       end.

Definition lift {A} (r : result A) : M A := λ σ, (σ, r).

Notation "'do' x <- m ; k" := (bind m (λ x, k))
  (at level 10, x name, m at level 100, k at level 200).
Notation "m ;; k" := (bind m (λ _, k))
  (at level 100, k at level 200, right associativity).

Definition write (path : string) (f : file) : M unit :=
  λ σ, (World (<[path := f]> (fs σ)) (log σ ++ [Wrote path]), Ok tt).

Definition print (line : string) : M unit :=
  λ σ, (World (fs σ) (log σ ++ [Printed line]), Ok tt).

(** [Path.exists()]. *)
Definition path_exists (path : string) : M bool :=
  λ σ, (σ, Ok (bool_decide (is_Some (fs σ !! path)))).

(** [Image.open(path).convert("RGBA")]. *)
Definition Image_open (path : string) : M (raster pixel) :=
  λ σ, match fs σ !! path with
       | Some (FPng im) => (σ, Ok im)
       | Some _ => (σ, Raise (UnidentifiedImageError path))
       | None => (σ, Raise (FileNotFoundError path))
       end.

(** ** Worlds along a run, and what a run may touch *)

(** The world once the screenshot of a viewport is on disk. *)
Definition captured (label : string) (a : raster pixel) (σ : world) : world :=
  World (<[actual_path label := FPng a]> (fs σ)) (log σ ++ [Wrote (actual_path label)]).

(** The world once the diff of a viewport is on disk as well. *)
Definition compared (label : string) (a r : raster pixel) (σ : world) : world :=
  World (<[diff_path label := FPng (difference a r)]> (fs (captured label a σ)))
        (log (captured label a σ) ++ [Wrote (diff_path label)]).

(** The world once the report is written and announced. *)
Definition reported (report : list report_item) (σ : world) : world :=
  World (<[report_path := FText (report ++ [Hints])]> (fs σ))
        (log σ ++ [Wrote report_path; Printed ("✅ wrote " +:+ report_path)]).

(** The writes a viewport may make: its capture, and its diff when the
    reference is there. [fs0] is the file system at the start of the run. *)
Definition artifact_write (fs0 : gmap string file) (ev : event) : Prop :=
  ∃ label, ev = Wrote (actual_path label) ∨
           (ev = Wrote (diff_path label) ∧ is_Some (fs0 !! ref_path label)).

(** What the loop never touches: the references and the report. *)
Definition inputs_kept (fs0 : gmap string file) (σ : world) : Prop :=
  (∀ l, fs σ !! ref_path l = fs0 !! ref_path l) ∧
  fs σ !! report_path = fs0 !! report_path.

(** The luma byte of a difference pixel, as [mismatch_ratio] tests it. *)
Definition diff_luma (p q : pixel) : Z := rgb2l (px_difference p q).

(** [Image.getpixel((x, y))], where the raster has such a pixel. *)
Definition pixel_at {A} (im : raster A) (x y : nat) : option A :=
  rows im !! y ≫= λ row, row !! x.

(** Two pixels with the same colour bands; the alpha bands are free. *)
Definition same_rgb (p q : pixel) : Prop :=
  chR p = chR q ∧ chG p = chG q ∧ chB p = chB q.

(** * The spending coach backend (backend.py)

    The Flask handlers act on the module-level list [transactions]; a handler
    is a function from that list and the request to the new list, the lines
    printed or logged, and the response. What Python itself supplies (floats,
    [str.lower], [format(v, ".2f")], float arithmetic and rounding) is an
    interface the handlers are written against. *)

Module Backend.

Inductive error : Type :=
| AttributeError
| TypeError
| ValueError
| OverflowError
| BadRequest.

(** Returning normally, or raising. *)
Inductive attempt (A : Type) : Type :=
| Return (a : A)
| Throw (e : error).
Arguments Return {A} a.
Arguments Throw {A} e.

(** A value as [json.loads] builds it; [F] is the type of Python floats. *)
#[warnings="-register-all"]
Inductive json (F : Type) : Type :=
| JNull
| JBool (b : bool)
| JInt (z : Z)
| JFloat (x : F)
| JStr (s : string)
| JList (l : list (json F))
| JDict (d : gmap string (json F)).
Arguments JNull {F}.
Arguments JBool {F} b.
Arguments JInt {F} z.
Arguments JFloat {F} x.
Arguments JStr {F} s.
Arguments JList {F} l.
Arguments JDict {F} d.

(** What the handlers take from Python and its libraries. *)
Class Python : Type := {
  float : Type;
  (** [0.0] *)
  zero : float;
  (** [x == 0.0] *)
  float_is_zero : float → bool;
  (** [str.lower] *)
  lower : string → string;
  (** [format(v, ".2f")]: the text, or the exception for a value that has no
      such format. *)
  format_2f : json float → attempt string;
  (** [round(sum(xs) / len(xs), 2)] for a list that is not empty. *)
  mean_2 : list (json float) → attempt (json float);
  (** [round(n / d, 2)] for two lengths. *)
  ratio_2 : nat → nat → json float;
}.

(** [needle in haystack] for two strings. *)
Fixpoint contains (needle haystack : string) : bool :=
  String.prefix needle haystack ||
  match haystack with
  | EmptyString => false
  | String _ rest => contains needle rest
  end.

Section Server.
Context `{Python}.

(** A transaction: a dict with string keys. *)
Local Abbreviation dict := (gmap string (json float)).

(** [bool(v)]. *)
Definition truthy (v : json float) : bool :=
  match v with
  | JNull => false
  | JBool b => b
  | JInt z => negb (z =? 0)
  | JFloat x => negb (float_is_zero x)
  | JStr s => negb (String.eqb s EmptyString)
  | JList l => match l with [] => false | _ => true end
  | JDict d => match map_to_list d with [] => false | _ => true end
  end.

(** [field in v] for a string [field]. *)
Definition has_field (field : string) (v : json float) : attempt bool :=
  match v with
  | JDict d => Return (bool_decide (is_Some (d !! field)))
  | JList l =>
      Return (existsb (λ e, match e with JStr s => String.eqb s field | _ => false end) l)
  | JStr s => Return (contains field s)
  | _ => Throw TypeError
  end.

Definition GROCERIES : list string :=
  ["grocery"; "supermarket"; "whole foods"; "trader joe"; "safeway"; "kroger"; "publix"].
Definition DINING : list string :=
  ["restaurant"; "cafe"; "coffee"; "food"; "dine"; "dining"; "starbucks"; "mcdonald";
   "burger"; "pizza"; "kitchen"; "grill"; "garden"; "bistro"; "tavern"].
Definition TRANSPORTATION : list string :=
  ["gas"; "fuel"; "shell"; "exxon"; "chevron"; "bp"; "mobil"].
Definition ENTERTAINMENT : list string :=
  ["netflix"; "spotify"; "subscription"; "hulu"; "disney"; "prime video"; "apple tv"].
Definition SHOPPING : list string :=
  ["amazon"; "store"; "shop"; "target"; "walmart"; "mall"].

(** [any(word in merchant for word in words)]. *)
Definition any_in (words : list string) (merchant : string) : bool :=
  existsb (λ word, contains word merchant) words.

(** backend.py, lines 16-46. A merchant that is not a string has no
    [lower]. *)
Definition classify_transaction (transaction : dict) : attempt string :=
  match default (JStr EmptyString) (transaction !! "merchant") with
  | JStr s =>
      let merchant := lower s in
      if any_in GROCERIES merchant then Return "groceries"
      else if any_in DINING merchant then Return "dining"
      else if any_in TRANSPORTATION merchant then Return "transportation"
      else if any_in ENTERTAINMENT merchant then Return "entertainment"
      else if any_in SHOPPING merchant then Return "shopping"
      else Return "other"
  | _ => Throw AttributeError
  end.

(** The six categories [classify_transaction] can answer. *)
Definition CATEGORIES : list string :=
  ["groceries"; "dining"; "transportation"; "entertainment"; "shopping"; "other"].

(** The transaction as it is stored: with its id, its timestamp and its
    category. *)
Definition stored (d : dict) (n : nat) (now category : string) : dict :=
  let d := <["id" := default (JStr ("txn_" +:+ pretty (n + 1)%nat)) (d !! "id")]> d in
  let d := <["timestamp" := default (JStr now) (d !! "timestamp")]> d in
  <["category" := JStr category]> d.

(** What a handler prints or logs. *)
Inductive effect : Type :=
| Printed (line : string)
| LoggedError (e : error).

Record notification : Type := Notification {
  n_status : string;
  n_message : string;
  n_timestamp : string;
  n_recipient : string;
  n_transaction_id : json float;
}.

(** [str(v)] where the handler formats a merchant; it is a string there, or
    [classify_transaction] had raised. *)
Definition merchant_text (v : option (json float)) (missing : string) : string :=
  match v with
  | Some (JStr s) => s
  | Some _ => EmptyString
  | None => missing
  end.

(** backend.py, lines 49-72; [now] is [datetime.now().isoformat()]. The first
    line is printed before the amount of the second is formatted. *)
Definition send_imessage_notification (now : string) (message : string)
    (transaction : dict) : list effect * attempt notification :=
  let first := Printed ("üì± iMessage Notification: " +:+ message) in
  match format_2f (default (JInt 0) (transaction !! "amount")) with
  | Throw e => ([first], Throw e)
  | Return amount =>
      ([first;
        Printed ("   Transaction: $" +:+ amount +:+ " at " +:+
                 merchant_text (transaction !! "merchant") "Unknown")],
       Return (Notification "sent" message now "user@example.com"
                 (default (JStr "unknown") (transaction !! "id"))))
  end.

Record prediction : Type := Prediction {
  predicted_category : string;
  predicted_amount : json float;
  confidence : json float;
  reasoning : string;
}.

(** [category_counts[cat] = category_counts.get(cat, 0) + 1] on a dict in
    insertion order. *)
Fixpoint bump (cat : string) (counts : list (string * nat)) : list (string * nat) :=
  match counts with
  | [] => [(cat, 1%nat)]
  | (c, n) :: rest =>
      if String.eqb c cat then (c, S n) :: rest else (c, n) :: bump cat rest
  end.

Definition count_categories (categories : list string) : list (string * nat) :=
  foldl (λ counts cat, bump cat counts) [] categories.

(** [max(counts, key=counts.get)] with the first entry as the start: a later
    key wins only with a strictly greater count. *)
Definition max_key (first : string * nat) (rest : list (string * nat)) : string * nat :=
  foldl (λ best entry, if (best.2 <? entry.2)%nat then entry else best) first rest.

(** The category a stored transaction counts under, [t.get('category',
    'other')], when it is a string; every transaction the server stores has a
    string there. *)
Definition counted_category (t : dict) : option string :=
  match t !! "category" with
  | None => Some "other"
  | Some (JStr c) => Some c
  | Some _ => None
  end.

(** [t.get('category') == category]. *)
Definition in_category (category : string) (t : dict) : bool :=
  match t !! "category" with
  | Some (JStr c) => String.eqb c category
  | _ => false
  end.

(** How often a category occurs in a history. *)
Definition occurrences (c : string) (categories : list string) : nat :=
  length (filter (λ x, x = c) categories).

(** The distinct categories of a history, in the order they are first seen:
    the keys of [category_counts]. *)
Definition first_seen (categories : list string) : list string :=
  foldl (λ seen c, if decide (c ∈ seen) then seen else seen ++ [c]) [] categories.

(** [best] is the first entry of [entries] with the greatest count. *)
Definition first_max (entries : list (string * nat)) (best : string * nat) : Prop :=
  ∃ before after,
    entries = before ++ best :: after ∧
    Forall (λ e : string * nat, (e.2 < best.2)%nat) before ∧
    Forall (λ e : string * nat, (e.2 ≤ best.2)%nat) after.

(** backend.py, lines 75-111, on a history whose categories are strings
    ([None] stands for a history that holds another kind of category). The
    zeros of the first answer are floats, the zero mean of an empty selection
    is the integer. *)
Definition predict_next_purchase (transactions : list dict)
  : option (attempt prediction) :=
  match transactions with
  | [] => Some (Return (Prediction "unknown" (JFloat zero) (JFloat zero)
                          "No transaction history available"))
  | _ :: _ =>
      categories ← mapM counted_category transactions;
      match count_categories categories with
      | [] => None
      | first :: rest =>
          let '(most_common_category, count) := max_key first rest in
          let category_amounts :=
            map (λ t : dict, default (JInt 0) (t !! "amount"))
                (filter (λ t, in_category most_common_category t = true) transactions) in
          let avg_amount :=
            match category_amounts with
            | [] => Return (JInt 0)
            | _ => mean_2 category_amounts
            end in
          Some match avg_amount with
               | Throw e => Throw e
               | Return amount =>
                   Return (Prediction most_common_category amount
                             (ratio_2 count (length transactions))
                             ("Based on " +:+ pretty (length transactions) +:+
                              " transactions, " +:+ most_common_category +:+
                              " is your most frequent category"))
               end
      end
  end.

(** The body of a response, before [jsonify]. *)
Inductive body : Type :=
| ErrorBody (message : string)
| Accepted (transaction : dict) (sent : notification)
| Listing (count : nat) (transactions : list dict)
| Cleared.

(** backend.py, lines 120-169. [request] is what [request.get_json()] gives
    or raises, [now] and [later] the two readings of the clock. Whatever is
    raised inside the [try] is logged and answered with 500; what was done
    before stays done. *)
Definition accept_transaction (request : attempt (json float)) (now later : string)
    (transactions : list dict) : list dict * list effect * (Z * body) :=
  let failed e store printed :=
    (store, printed ++ [LoggedError e],
     (500, ErrorBody "Failed to process transaction")) in
  match request with
  | Throw e => failed e transactions []
  | Return data =>
      if negb (truthy data)
      then (transactions, [], (400, ErrorBody "No transaction data provided"))
      else
        match has_field "amount" data with
        | Throw e => failed e transactions []
        | Return false =>
            (transactions, [], (400, ErrorBody "Missing required field: amount"))
        | Return true =>
            match has_field "merchant" data with
            | Throw e => failed e transactions []
            | Return false =>
                (transactions, [], (400, ErrorBody "Missing required field: merchant"))
            | Return true =>
                match data with
                | JDict d =>
                    let d := <["id" :=
                      default (JStr ("txn_" +:+ pretty (length transactions + 1)%nat))
                              (d !! "id")]> d in
                    let d := <["timestamp" := default (JStr now) (d !! "timestamp")]> d in
                    match classify_transaction d with
                    | Throw e => failed e transactions []
                    | Return category =>
                        let d := <["category" := JStr category]> d in
                        let transactions := transactions ++ [d] in
                        match format_2f (default JNull (d !! "amount")) with
                        | Throw e => failed e transactions []
                        | Return amount =>
                            let message :=
                              "üí∞ New " +:+ category +:+ " transaction: $" +:+ amount
                              +:+ " at " +:+ merchant_text (d !! "merchant") EmptyString in
                            match send_imessage_notification later message d with
                            | (printed, Throw e) => failed e transactions printed
                            | (printed, Return sent) =>
                                (transactions, printed, (201, Accepted d sent))
                            end
                        end
                    end
                | _ => failed AttributeError transactions []
                end
            end
        end
  end.

(** backend.py, lines 172-178. *)
Definition get_transactions (transactions : list dict) : Z * body :=
  (200, Listing (length transactions) transactions).

(** backend.py, lines 188-193. *)
Definition reset_data (transactions : list dict) : list dict * (Z * body) :=
  ([], (200, Cleared)).

(** A request to the server, and the list of transactions after a sequence
    of requests. *)
Inductive call : Type :=
| PostTransaction (request : attempt (json float)) (now later : string)
| GetTransactions
| GetPredict
| PostReset.

Definition serve (transactions : list dict) (c : call) : list dict :=
  match c with
  | PostTransaction request now later =>
      (accept_transaction request now later transactions).1.1
  | PostReset => (reset_data transactions).1
  | GetTransactions | GetPredict => transactions
  end.

Definition after (calls : list call) : list dict := foldl serve [] calls.

(** A transaction as the server stores them. *)
Definition well_stored (t : dict) : Prop :=
  ∃ c m,
    t !! "category" = Some (JStr c) ∧
    t !! "merchant" = Some (JStr m) ∧
    classify_transaction t = Return c ∧
    c ∈ CATEGORIES ∧
    is_Some (t !! "amount") ∧
    is_Some (t !! "id") ∧
    is_Some (t !! "timestamp").

(** The answer to whatever is raised inside [accept_transaction]. *)
Definition failure : Z * body := (500, ErrorBody "Failed to process transaction").

End Server.

(** ** A Python for the examples

    Floats as rationals, [lower] on ASCII letters, two-decimal formats and
    rounding half-even: what CPython computes on the short ASCII merchants
    and small amounts of the examples. *)

Definition lower_char (a : Ascii.ascii) : Ascii.ascii :=
  let n := Ascii.nat_of_ascii a in
  if ((65 <=? n) && (n <=? 90))%nat then Ascii.ascii_of_nat (n + 32) else a.

Fixpoint ascii_lower (s : string) : string :=
  match s with
  | EmptyString => EmptyString
  | String a rest => String (lower_char a) (ascii_lower rest)
  end.

Definition round_half_even (q : Q) : Z :=
  let d := Z.pos (Qden q) in
  let floor := Qnum q / d in
  let twice := 2 * (Qnum q `mod` d) in
  if twice <? d then floor
  else if d <? twice then floor + 1
  else if Z.even floor then floor else floor + 1.

Definition round_2 (q : Q) : Q := round_half_even (q * 100) # 100.

Definition two_decimals (q : Q) : string :=
  let cents := round_half_even (q * 100) in
  let a := Z.abs cents in
  (if cents <? 0 then "-" else EmptyString) +:+ pretty (a / 100) +:+ "." +:+
  pretty ((a / 10) `mod` 10) +:+ pretty (a `mod` 10).

Definition number_value (v : json Q) : option Q :=
  match v with
  | JInt z => Some (inject_Z z)
  | JFloat q => Some q
  | JBool b => Some (if b then 1%Q else 0%Q)
  | _ => None
  end.

Definition python_for_examples : Python := {|
  float := Q;
  zero := 0%Q;
  float_is_zero := λ q, Qeq_bool q 0;
  lower := ascii_lower;
  format_2f := λ v,
    match number_value v, v with
    | Some q, _ => Return (two_decimals q)
    | None, JStr _ => Throw ValueError
    | None, _ => Throw TypeError
    end;
  mean_2 := λ xs,
    match mapM number_value xs with
    | Some qs =>
        Return (JFloat (round_2 (foldr Qplus 0%Q qs / inject_Z (Z.of_nat (length qs)))))
    | None => Throw TypeError
    end;
  ratio_2 := λ n d, JFloat (round_2 (Z.of_nat n # Pos.of_nat d));
|}.

(** Requests of the examples. *)
Definition coffee : gmap string (json Q) :=
  {[ "amount" := JFloat (9 # 2); "merchant" := JStr "Starbucks Coffee" ]}.
Definition groceries : gmap string (json Q) :=
  {[ "id" := JStr "custom_txn_001"; "amount" := JFloat (1789 # 20);
     "merchant" := JStr "Whole Foods Market" ]}.
Definition dinner : gmap string (json Q) :=
  {[ "amount" := JInt 35; "merchant" := JStr "Olive Garden" ]}.
Definition text_amount : gmap string (json Q) :=
  {[ "amount" := JStr "ten"; "merchant" := JStr "Shell Gas Station" ]}.
Definition numbered_merchant : gmap string (json Q) :=
  {[ "amount" := JInt 10; "merchant" := JInt 7 ]}.

Definition post (d : gmap string (json Q)) : call (H := python_for_examples) :=
  PostTransaction (H := python_for_examples) (Return (JDict d))
    "2025-11-08T10:30:00" "2025-11-08T10:30:01".

(** Three accepted transactions: dining, groceries, dining. *)
Definition three_requests : list (call (H := python_for_examples)) :=
  [post coffee; post groceries; post dinner].

End Backend.

(** * The plan executor (executor/execute.py): finding the JSON blocks *)

Module Executor.

(** The backtick, and the two literals of the pattern
    [```json\s*(.*?)```]: the opening fence and the closing fence. A text is
    the sequence of its code points. *)
Definition BACKTICK : N := 96.
Definition OPENING : list N := [96; 96; 96; 106; 115; 111; 110]%N.
Definition CLOSING : list N := [96; 96; 96]%N.

Fixpoint starts_with (literal text : list N) : bool :=
  match literal, text with
  | [], _ => true
  | p :: literal, c :: text => (p =? c)%N && starts_with literal text
  | _ :: _, [] => false
  end.

(** The first place where [literal] occurs: the text before it and the text
    after it. *)
Fixpoint split_at (literal text : list N) : option (list N * list N) :=
  if starts_with literal text then Some ([], drop (length literal) text)
  else match text with
       | [] => None
       | c :: rest =>
           match split_at literal rest with
           | Some (before, after) => Some (c :: before, after)
           | None => None
           end
       end.

Section Pattern.

(** The characters [\s] matches. The backtick is none of them, so the
    pattern gains nothing from taking less whitespace than there is. *)
Variable is_space : N → bool.

(** [\s*], which takes all the whitespace there is. *)
Fixpoint skip_spaces (text : list N) : list N :=
  match text with
  | c :: rest => if is_space c then skip_spaces rest else text
  | [] => []
  end.

(** [re.findall] with the pattern, match by match from the left. At the
    first opening fence the whitespace is skipped and the lazy group runs to
    the first closing fence; the search goes on behind it. Where no closing
    fence follows, the pattern does not match at this opening fence and the
    search goes on one character further. Each step is on a shorter text, so
    [fuel] as long as the text is enough. *)
Fixpoint blocks_from (fuel : nat) (text : list N) : list (list N) :=
  match fuel with
  | O => []
  | S fuel =>
      match split_at OPENING text with
      | None => []
      | Some (_, after) =>
          match split_at CLOSING (skip_spaces after) with
          | Some (block, rest) => block :: blocks_from fuel rest
          | None => blocks_from fuel (tail OPENING ++ after)
          end
      end
  end.

(** execute.py, lines 16-19. *)
Definition extract_json_blocks (text : list N) : list (list N) :=
  blocks_from (length text) text.

End Pattern.

(** ASCII whitespace, for the examples. *)
Definition ascii_space (c : N) : bool :=
  ((c =? 32) || ((9 <=? c) && (c <=? 13)))%N.

(** "see", a fenced block holding "[]", and "ok". *)
Definition plan_text : list N :=
  [115; 101; 101; 10]%N ++ OPENING ++ [10]%N ++ [91; 93]%N ++ CLOSING ++ [111; 107]%N.

End Executor.

(** ** Small rasters, browsers and worlds for the examples *)

Definition white : pixel := Px 255 255 255 255.
Definition black : pixel := Px 0 0 0 255.

(** A raster from its scan lines, [w] pixels wide. *)
Definition raster_of (w : Z) (lines : list (list pixel)) : raster pixel :=
  Raster (w, Z.of_nat (length lines)) lines.

(** Nearest-neighbour resampling, one of the filters [Image.resize] offers. *)
Definition resample_nearest (im : raster pixel) (s : Z * Z) : raster pixel :=
  Raster s
    (map (λ y, map (λ x,
                      nth (Z.to_nat (Z.of_nat x * width im / s.1))
                          (nth (Z.to_nat (Z.of_nat y * height im / s.2)) (rows im) [])
                          (Px 0 0 0 0))
                   (seq 0 (Z.to_nat s.1)))
         (seq 0 (Z.to_nat s.2))).

(** A page that renders half white, half black, two pixels wide. *)
Definition half_page : raster pixel := raster_of 2 [[white; black]].
Definition white_page : raster pixel := raster_of 2 [[white; white]].
Definition white_dot : raster pixel := raster_of 1 [[white]].

(** A browser that renders [half_page] in every viewport. *)
Definition browser_up : string → Z → Z → string → result (raster pixel) :=
  λ _ _ _ _, Ok half_page.

(** Browsers that fail in the viewport of the given width. *)
Definition browser_down_at (width : Z)
  : string → Z → Z → string → result (raster pixel) :=
  λ _ w _ _, if decide (w = width) then Raise PlaywrightError else Ok half_page.

(** No reference at all, and a reference for the desktop viewport only. *)
Definition no_references : world := World ∅ [].
Definition desktop_reference (r : raster pixel) : world :=
  World {[ ref_path "desktop" := FPng r ]} [].

(** Two one-pixel rasters of the same colour, one opaque, one transparent,
    and two that differ by one step of blue. *)
Definition opaque_dot : raster pixel := raster_of 1 [[Px 10 20 30 255]].
Definition clear_dot : raster pixel := raster_of 1 [[Px 10 20 30 0]].
Definition bluer_dot : raster pixel := raster_of 1 [[Px 10 20 31 255]].

(** The defaults of TARGET_URL and READY_SELECTOR. *)
Definition url : string := "http://localhost:3000".
Definition ready : string := "body".

(** The world at the end of a run where the desktop reference is the page as
    rendered and the mobile reference is missing. *)
Definition desktop_only_run : world :=
  reported [Title;
            Compared "desktop" 0%Q Pass (actual_path "desktop")
              (ref_path "desktop") (diff_path "desktop");
            Skipped "mobile" (ref_path "mobile")]
    (captured "mobile" half_page
       (compared "desktop" half_page half_page (desktop_reference half_page))).

(** More pages and worlds: all black, without pixels, and a reference that is
    no image. *)
Definition black_page : raster pixel := raster_of 2 [[black; black]].
Definition no_page : raster pixel := raster_of 0 [].
Definition broken_desktop_reference : world :=
  World {[ ref_path "desktop" := FOther ]} [].

(** Closed goals about the examples are settled by evaluation. *)
Ltac by_evaluation := vm_compute; reflexivity.

Ltac each_code_point :=
  repeat first [apply Forall_nil_2 | apply Forall_cons_2; [first [discriminate|reflexivity]|]].

Ltac wf_by_evaluation :=
  unfold wf_image, wf_raster, width, height; cbn;
  repeat first [split | constructor]; unfold byte_ok; cbn; lia.

Section Reviewer.

Variable TARGET_URL : string.
Variable READY_SELECTOR : string.
Variable THRESHOLD : Q.

(** The browser: the full-page screenshot it renders of a URL in a viewport
    once the selector is there, or the error Playwright raises. *)
Variable browser : string → Z → Z → string → result (raster pixel).

(** [Image.resize] resamples with a filter that is Pillow's business; all the
    reviewer relies on is that the output has the requested size. *)
Variable resample : raster pixel → Z * Z → raster pixel.
Hypothesis resample_size : ∀ im s, im_size (resample im s) = s.

(** [Image.resize(size)]: Pillow refuses a target without pixels. *)
Definition resize (im : raster pixel) (s : Z * Z) : result (raster pixel) :=
  if decide (s.1 < 1 ∨ s.2 < 1) then Raise ValueError
  else Ok (resample im s).

(** review.py, lines 17-23. *)
Definition mismatch_ratio (im1 im2 : raster pixel) : result Q :=
  rbind (if decide (im_size im1 ≠ im_size im2)
         then resize im2 (im_size im1) else Ok im2) (λ im2,
  let diff := convert_L (difference im1 im2) in
  let total := (im_size diff).1 * (im_size diff).2 in
  let nonzero := Z.of_nat (length (filter (λ px, px ≠ 0) (getdata diff))) in
  truediv nonzero total).

(** review.py, lines 25-32: the screenshot lands in [out_path] unless a
    Playwright call raises first. *)
Definition screenshot (url : string) (w h : Z) (out_path ready : string) : M unit :=
  do im <- lift (browser url w h ready);
  write out_path (FPng im).

(** review.py, line 53. *)
Definition decide_status (ratio : Q) : status :=
  if Qlt_le_dec THRESHOLD ratio then Fail else Pass.

(** The body of the loop of [main], lines 38-55. *)
Definition viewport_body (vp : string * Z * Z) (report : list report_item)
  : M (list report_item) :=
  let '(label, w, h) := vp in
  let actual := actual_path label in
  let diffp := diff_path label in
  let ref := ref_path label in
  screenshot TARGET_URL w h actual READY_SELECTOR ;;
  do found <- path_exists ref;
  if negb found then ret (report ++ [Skipped label ref])
  else
    do a <- Image_open actual;
    do r <- Image_open ref;
    do ratio <- lift (mismatch_ratio a r);
    let d := difference a r in
    write diffp (FPng d) ;;
    let st := decide_status ratio in
    ret (report ++ [Compared label ratio st actual ref diffp]).

Fixpoint for_viewports (vps : list (string * Z * Z)) (report : list report_item)
  : M (list report_item) :=
  match vps with
  | [] => ret report
  | vp :: rest => do report <- viewport_body vp report; for_viewports rest report
  end.

(** [main] over a given registry; [OUT_DIR.mkdir] has nothing to do in a file
    system without directories. *)
Definition main_over (vps : list (string * Z * Z)) : M unit :=
  do report <- for_viewports vps [Title];
  write report_path (FText (report ++ [Hints])) ;;
  print ("✅ wrote " +:+ report_path).

(** review.py, lines 34-59. *)
Definition main : M unit := main_over VIEWPORTS.

(** The reference as the comparison sees it: resampled when the sizes differ. *)
Definition normalized (im1 im2 : raster pixel) : raster pixel :=
  if decide (im_size im1 ≠ im_size im2) then resample im2 (im_size im1) else im2.

(** The pixels of the luma difference map that are not zero. *)
Definition nonzero_count (im1 im2 : raster pixel) : Z :=
  Z.of_nat (length (filter (λ px, px ≠ 0)
                      (concat (zip_with (zip_with diff_luma) (rows im1) (rows im2))))).

(** The report section of a viewport that was evaluated without error. *)
Definition section_for (fs0 : gmap string file) (vp : string * Z * Z)
    (item : report_item) : Prop :=
  let '(label, w, h) := vp in
  match fs0 !! ref_path label with
  | None => item = Skipped label (ref_path label)
  | Some f =>
      ∃ a r ratio,
        f = FPng r ∧
        browser TARGET_URL w h READY_SELECTOR = Ok a ∧
        mismatch_ratio a r = Ok ratio ∧
        item = Compared label ratio (decide_status ratio)
                 (actual_path label) (ref_path label) (diff_path label)
  end.

(** A viewport the run can evaluate: the browser delivers a capture with
    pixels, and the reference is absent or decodable. *)
Definition evaluable (fs0 : gmap string file) (vp : string * Z * Z) : Prop :=
  let '(label, w, h) := vp in
  (∃ a, browser TARGET_URL w h READY_SELECTOR = Ok a ∧ 0 < width a ∧ 0 < height a) ∧
  (fs0 !! ref_path label = None ∨ ∃ r, fs0 !! ref_path label = Some (FPng r)).

(** ** Paths *)

Lemma list_ascii_of_string_app s t :
  String.list_ascii_of_string (s +:+ t) = String.list_ascii_of_string s ++ String.list_ascii_of_string t.
Proof. induction s as [|c s IH]; simpl; [reflexivity|]. rewrite IH. reflexivity. Qed.

Lemma string_app_inv_tail s1 s2 t : s1 +:+ t = s2 +:+ t → s1 = s2.
Proof.
  intros H. apply (f_equal String.list_ascii_of_string) in H.
  rewrite !list_ascii_of_string_app in H. apply app_inv_tail in H.
  rewrite <- (String.string_of_list_ascii_of_string s1),
          <- (String.string_of_list_ascii_of_string s2), H.
  reflexivity.
Qed.

Lemma actual_path_inj l1 l2 : actual_path l1 = actual_path l2 → l1 = l2.
Proof.
  unfold actual_path, path_join, OUT_DIR. intros H.
  do 3 apply String.app_inj in H. exact (string_app_inv_tail _ _ _ H).
Qed.

Lemma diff_path_inj l1 l2 : diff_path l1 = diff_path l2 → l1 = l2.
Proof.
  unfold diff_path, path_join, OUT_DIR. intros H.
  do 3 apply String.app_inj in H. exact (string_app_inv_tail _ _ _ H).
Qed.

Lemma actual_path_not_diff l1 l2 : actual_path l1 ≠ diff_path l2.
Proof. unfold actual_path, diff_path, path_join, OUT_DIR. simpl. discriminate. Qed.

Lemma ref_path_not_actual l1 l2 : ref_path l1 ≠ actual_path l2.
Proof.
  unfold ref_path, actual_path, path_join, OUT_DIR, REF_DIR. simpl. discriminate.
Qed.

Lemma ref_path_not_diff l1 l2 : ref_path l1 ≠ diff_path l2.
Proof.
  unfold ref_path, diff_path, path_join, OUT_DIR, REF_DIR. simpl. discriminate.
Qed.

Lemma report_path_not_actual l : report_path ≠ actual_path l.
Proof. unfold report_path, actual_path, path_join, OUT_DIR. simpl. discriminate. Qed.

Lemma report_path_not_diff l : report_path ≠ diff_path l.
Proof. unfold report_path, diff_path, path_join, OUT_DIR. simpl. discriminate. Qed.

Lemma report_path_not_ref l : report_path ≠ ref_path l.
Proof.
  unfold report_path, ref_path, path_join, OUT_DIR, REF_DIR. simpl. discriminate.
Qed.

(** ** One viewport *)

(** [viewport_body] with its reads of the file system resolved: the capture
    is read back as written, the reference is as it was before the capture. *)
Lemma viewport_body_eq label w h report σ :
  viewport_body (label, w, h) report σ =
  match browser TARGET_URL w h READY_SELECTOR with
  | Raise e => (σ, Raise e)
  | Ok a =>
      match fs σ !! ref_path label with
      | None => (captured label a σ, Ok (report ++ [Skipped label (ref_path label)]))
      | Some (FPng r) =>
          match mismatch_ratio a r with
          | Ok ratio =>
              (compared label a r σ,
               Ok (report ++ [Compared label ratio (decide_status ratio)
                                (actual_path label) (ref_path label) (diff_path label)]))
          | Raise e => (captured label a σ, Raise e)
          end
      | Some _ => (captured label a σ, Raise (UnidentifiedImageError (ref_path label)))
      end
  end.
Proof.
  unfold viewport_body, screenshot, bind, lift.
  destruct (browser TARGET_URL w h READY_SELECTOR) as [a|e]; [|reflexivity].
  assert (Hne : actual_path label ≠ ref_path label)
    by apply not_eq_sym, ref_path_not_actual.
  unfold write at 1. cbn beta iota. unfold path_exists. cbn [fs log].
  rewrite (lookup_insert_ne _ _ _ _ Hne).
  destruct (fs σ !! ref_path label) as [f|] eqn:Href.
  - rewrite bool_decide_true by eauto. cbn [negb].
    unfold Image_open. cbn [fs].
    rewrite lookup_insert_eq. cbn beta iota. cbn [fs].
    rewrite (lookup_insert_ne _ _ _ _ Hne), Href.
    destruct f as [r| |]; reflexivity.
  - rewrite bool_decide_false by (intros [? [=]]). reflexivity.
Qed.

(** ** The loop over the registry *)

Lemma inputs_kept_captured fs0 label a σ :
  inputs_kept fs0 σ → inputs_kept fs0 (captured label a σ).
Proof.
  intros [Href Hrep]. split; [intros l|]; unfold captured; cbn [fs].
  - rewrite lookup_insert_ne by (apply not_eq_sym, ref_path_not_actual). apply Href.
  - rewrite lookup_insert_ne by (apply not_eq_sym, report_path_not_actual). exact Hrep.
Qed.

Lemma inputs_kept_compared fs0 label a r σ :
  inputs_kept fs0 σ → inputs_kept fs0 (compared label a r σ).
Proof.
  intros Hk. apply (inputs_kept_captured _ label a) in Hk as [Href Hrep].
  split; [intros l|]; unfold compared; cbn [fs].
  - rewrite lookup_insert_ne by (apply not_eq_sym, ref_path_not_diff). apply Href.
  - rewrite lookup_insert_ne by (apply not_eq_sym, report_path_not_diff). exact Hrep.
Qed.

Lemma viewport_body_spec fs0 vp report σ σ' res :
  inputs_kept fs0 σ →
  viewport_body vp report σ = (σ', res) →
  inputs_kept fs0 σ' ∧
  (∃ evs, log σ' = log σ ++ evs ∧ Forall (artifact_write fs0) evs) ∧
  (∀ report', res = Ok report' →
     ∃ item, report' = report ++ [item] ∧ section_for fs0 vp item).
Proof.
  destruct vp as [[label w] h]. intros Hk. rewrite viewport_body_eq.
  pose proof (proj1 Hk label) as Href.
  assert (Hcap : ∀ a, ∃ evs, log (captured label a σ) = log σ ++ evs ∧
                             Forall (artifact_write fs0) evs).
  { intros a. eexists. split; [reflexivity|].
    repeat constructor. exists label. auto. }
  destruct (browser TARGET_URL w h READY_SELECTOR) as [a|e] eqn:Hshot.
  2:{ intros [= <- <-]. split; [exact Hk|]. split; [|discriminate].
      exists []. rewrite app_nil_r. auto. }
  unfold section_for. rewrite <- Href.
  destruct (fs σ !! ref_path label) as [[r| |]|] eqn:Hfile.
  - destruct (mismatch_ratio a r) as [ratio|e] eqn:Hratio.
    + intros [= <- <-]. split; [apply inputs_kept_compared, Hk|]. split.
      * exists [Wrote (actual_path label); Wrote (diff_path label)].
        split; [unfold compared, captured; cbn [log]; rewrite <- app_assoc; reflexivity|].
        repeat constructor; exists label; [auto|].
        right. split; [reflexivity|]. rewrite <- Href. eauto.
      * intros report' [= <-]. eexists. split; [reflexivity|].
        exists a, r, ratio. auto.
    + intros [= <- <-]. split; [apply inputs_kept_captured, Hk|].
      split; [apply Hcap|discriminate].
  - intros [= <- <-]. split; [apply inputs_kept_captured, Hk|].
    split; [apply Hcap|discriminate].
  - intros [= <- <-]. split; [apply inputs_kept_captured, Hk|].
    split; [apply Hcap|discriminate].
  - intros [= <- <-]. split; [apply inputs_kept_captured, Hk|].
    split; [apply Hcap|].
    intros report' [= <-]. eexists. split; reflexivity.
Qed.

Lemma for_viewports_spec fs0 vps report σ σ' res :
  inputs_kept fs0 σ →
  for_viewports vps report σ = (σ', res) →
  inputs_kept fs0 σ' ∧
  (∃ evs, log σ' = log σ ++ evs ∧ Forall (artifact_write fs0) evs) ∧
  (∀ report', res = Ok report' →
     ∃ items, report' = report ++ items ∧ Forall2 (section_for fs0) vps items).
Proof.
  revert report σ. induction vps as [|vp vps IH]; intros report σ Hk; cbn [for_viewports].
  - unfold ret. intros [= <- <-]. split; [exact Hk|]. split.
    + exists []. rewrite app_nil_r. auto.
    + intros report' [= <-]. exists []. rewrite app_nil_r. auto.
  - unfold bind.
    destruct (viewport_body vp report σ) as [σ1 res1] eqn:Hbody.
    destruct (viewport_body_spec fs0 _ _ _ _ _ Hk Hbody)
      as (Hk1 & (evs1 & Hlog1 & Hevs1) & Hsec1).
    destruct res1 as [report1|e].
    + intros Hrest.
      destruct (IH _ _ Hk1 Hrest) as (Hk' & (evs & Hlog & Hevs) & Hsec).
      split; [exact Hk'|]. split.
      * exists (evs1 ++ evs). rewrite Hlog, Hlog1, app_assoc.
        split; [reflexivity|]. apply Forall_app; auto.
      * intros report' Hres.
        destruct (Hsec1 _ eq_refl) as (item & -> & Hitem).
        destruct (Hsec _ Hres) as (items & -> & Hitems).
        exists (item :: items). rewrite <- app_assoc. split; [reflexivity|].
        constructor; assumption.
    + intros [= <- <-]. split; [exact Hk1|]. split; [eauto|discriminate].
Qed.

Lemma for_viewports_app vps1 vps2 report σ :
  for_viewports (vps1 ++ vps2) report σ =
  bind (for_viewports vps1 report) (for_viewports vps2) σ.
Proof.
  revert report σ. induction vps1 as [|vp vps1 IH]; intros report σ;
    cbn [for_viewports app].
  - reflexivity.
  - unfold bind at 1 2 3.
    destruct (viewport_body vp report σ) as [σ1 [report1|e]]; [|reflexivity].
    rewrite IH. reflexivity.
Qed.

Lemma inputs_kept_refl σ : inputs_kept (fs σ) σ.
Proof. split; reflexivity. Qed.

Lemma main_over_eq vps σ :
  main_over vps σ =
  match for_viewports vps [Title] σ with
  | (σ1, Ok report) => (reported report σ1, Ok tt)
  | (σ1, Raise e) => (σ1, Raise e)
  end.
Proof.
  unfold main_over, bind.
  destruct (for_viewports vps [Title] σ) as [σ1 [report|e]]; [|reflexivity].
  unfold write, print, reported. cbn [fs log]. rewrite <- app_assoc. reflexivity.
Qed.

Lemma artifact_write_not_report fs0 ev :
  artifact_write fs0 ev → ev ≠ Wrote report_path ∧ ∀ line, ev ≠ Printed line.
Proof.
  intros [l [->|[-> _]]]; (split; [|discriminate]); intros H.
  - apply (report_path_not_actual l). congruence.
  - apply (report_path_not_diff l). congruence.
Qed.

Lemma artifact_writes_not_report fs0 evs :
  Forall (artifact_write fs0) evs →
  (Wrote report_path ∉ evs) ∧ (∀ line, Printed line ∉ evs).
Proof.
  intros Hevs. rewrite Forall_forall in Hevs.
  split; [|intros line]; intros Hin;
    destruct (artifact_write_not_report _ _ (Hevs _ Hin)) as [H1 H2];
    [exact (H1 eq_refl)|exact (H2 line eq_refl)].
Qed.

Lemma artifact_writes_no_diff fs0 evs label :
  fs0 !! ref_path label = None →
  Forall (artifact_write fs0) evs → Wrote (diff_path label) ∉ evs.
Proof.
  intros Hnone Hevs Hin. rewrite Forall_forall in Hevs.
  destruct (Hevs _ Hin) as [l [H|[H Hsome]]].
  - apply (actual_path_not_diff l label). congruence.
  - assert (label = l) as <- by (apply diff_path_inj; congruence).
    rewrite Hnone in Hsome. destruct Hsome as [? [=]].
Qed.

Lemma decide_status_Fail ratio :
  decide_status ratio = Fail ↔ (THRESHOLD < ratio)%Q.
Proof.
  unfold decide_status.
  destruct (Qlt_le_dec THRESHOLD ratio) as [Hlt|Hle]; split; auto; [discriminate|].
  intros Hlt. exfalso. exact (Qlt_not_le _ _ Hlt Hle).
Qed.

Lemma decide_status_at_threshold ratio :
  (ratio == THRESHOLD)%Q → decide_status ratio = Pass.
Proof.
  intros Heq. destruct (decide_status ratio) eqn:Hst; [|reflexivity].
  apply decide_status_Fail in Hst. rewrite Heq in Hst.
  exfalso. exact (Qlt_irrefl _ Hst).
Qed.

Lemma decide_status_zero : (0 <= THRESHOLD)%Q → decide_status 0%Q = Pass.
Proof.
  intros HT. destruct (decide_status 0%Q) eqn:Hst; [|reflexivity].
  apply decide_status_Fail in Hst. exfalso. exact (Qlt_not_le _ _ Hst HT).
Qed.

Lemma viewport_body_ratio label w h report σ a r ratio :
  browser TARGET_URL w h READY_SELECTOR = Ok a →
  fs σ !! ref_path label = Some (FPng r) →
  mismatch_ratio a r = Ok ratio →
  viewport_body (label, w, h) report σ =
  (compared label a r σ,
   Ok (report ++ [Compared label ratio (decide_status ratio)
                    (actual_path label) (ref_path label) (diff_path label)])).
Proof.
  intros Hshot Href Hratio.
  rewrite viewport_body_eq, Hshot, Href, Hratio. reflexivity.
Qed.

(** ** Facts about the Pillow operations *)

Lemma chop_difference_comm a b : chop_difference a b = chop_difference b a.
Proof. unfold chop_difference. f_equal. lia. Qed.

Lemma chop_difference_diag a : chop_difference a a = 0.
Proof. unfold chop_difference, clip8. lia. Qed.

Lemma chop_difference_byte a b : byte_ok (chop_difference a b).
Proof. unfold byte_ok, chop_difference, clip8. lia. Qed.

Lemma chop_difference_bytes a b :
  byte_ok a → byte_ok b → chop_difference a b = Z.abs (a - b).
Proof. unfold byte_ok, chop_difference, clip8. lia. Qed.

Lemma px_difference_comm p q : px_difference p q = px_difference q p.
Proof.
  unfold px_difference.
  f_equal; apply chop_difference_comm.
Qed.

Lemma zip_with_comm {A B} (f : A → A → B) (l k : list A) :
  (∀ x y, f x y = f y x) → zip_with f l k = zip_with f k l.
Proof.
  intros Hf. revert k.
  induction l as [|x l IH]; intros [|y k]; simpl; try reflexivity.
  rewrite Hf, IH. reflexivity.
Qed.

Lemma difference_comm im1 im2 : difference im1 im2 = difference im2 im1.
Proof.
  unfold difference. f_equal.
  - f_equal; apply Z.min_comm.
  - apply zip_with_comm. intros r1 r2.
    apply zip_with_comm, px_difference_comm.
Qed.

Lemma getdata_convert_difference im1 im2 :
  getdata (convert_L (difference im1 im2)) =
  concat (zip_with (zip_with diff_luma) (rows im1) (rows im2)).
Proof.
  unfold getdata, convert_L, difference. simpl. f_equal.
  generalize (rows im2). induction (rows im1) as [|r1 l1 IH]; intros [|r2 l2];
    simpl; try reflexivity.
  rewrite IH. f_equal.
  revert r2. induction r1 as [|p r1 IHr]; intros [|q r2]; simpl; try reflexivity.
  rewrite IHr. reflexivity.
Qed.

Lemma length_zip_with_le {A B C} (f : A → B → C) l k :
  (length (zip_with f l k) ≤ length l)%nat.
Proof.
  revert k. induction l as [|x l IH]; intros [|y k]; simpl; try lia.
  specialize (IH k). lia.
Qed.

Lemma length_concat_zip_with_le {A B C} (f : A → B → C) ll kk :
  (length (concat (zip_with (zip_with f) ll kk)) ≤ length (concat ll))%nat.
Proof.
  revert kk. induction ll as [|l ll IH]; intros [|k kk]; simpl; try lia.
  rewrite !length_app. specialize (IH kk).
  pose proof (length_zip_with_le f l k). lia.
Qed.

Lemma length_concat_rows {A} (ll : list (list A)) (w : Z) :
  Forall (λ row, Z.of_nat (length row) = w) ll →
  Z.of_nat (length (concat ll)) = Z.of_nat (length ll) * w.
Proof.
  induction 1 as [|l ll Hl _ IH]; simpl; [lia|].
  rewrite length_app. lia.
Qed.

Lemma length_getdata {A} (im : raster A) :
  wf_raster im → Z.of_nat (length (getdata im)) = width im * height im.
Proof.
  intros (_ & _ & Hh & Hw). unfold getdata.
  rewrite (length_concat_rows _ _ Hw). lia.
Qed.

(** ** The shape of [mismatch_ratio] *)

Lemma normalized_size im1 im2 : im_size (normalized im1 im2) = im_size im1.
Proof.
  unfold normalized. case_decide as Hs; [apply resample_size|congruence].
Qed.

Lemma mismatch_ratio_same_size im1 im2 :
  im_size im1 = im_size im2 →
  mismatch_ratio im1 im2 =
  truediv (nonzero_count im1 im2) (width im1 * height im1).
Proof.
  intros Hs. unfold mismatch_ratio.
  destruct (decide (im_size im1 ≠ im_size im2)) as [Hne|_]; [congruence|].
  simpl. rewrite getdata_convert_difference.
  unfold nonzero_count, width, height. rewrite <- Hs, !Z.min_id. reflexivity.
Qed.

Lemma mismatch_ratio_normalized im1 im2 :
  0 < width im1 → 0 < height im1 →
  mismatch_ratio im1 im2 =
  Ok (Qred (inject_Z (nonzero_count im1 (normalized im1 im2))
            / inject_Z (width im1 * height im1))).
Proof.
  intros Hw Hh.
  assert (Hdiv : ∀ n, truediv n (width im1 * height im1) =
                      Ok (Qred (inject_Z n / inject_Z (width im1 * height im1)))).
  { intros n. unfold truediv. case_decide as Hz; [nia|reflexivity]. }
  unfold normalized.
  destruct (decide (im_size im1 ≠ im_size im2)) as [Hne|Heq].
  - unfold mismatch_ratio, resize.
    destruct (decide (im_size im1 ≠ im_size im2)); [|contradiction].
    case_decide as Hbad; [unfold width, height in *; lia|].
    simpl. rewrite getdata_convert_difference, <- Hdiv.
    unfold nonzero_count, width, height.
    rewrite resample_size, !Z.min_id. reflexivity.
  - apply dec_stable in Heq as Hs.
    rewrite (mismatch_ratio_same_size _ _ Hs). apply Hdiv.
Qed.

Lemma nonzero_count_bounds im1 im2 :
  wf_raster im1 → 0 ≤ nonzero_count im1 im2 ≤ width im1 * height im1.
Proof.
  intros Hwf. unfold nonzero_count. split; [lia|].
  rewrite <- (length_getdata _ Hwf). unfold getdata.
  apply inj_le.
  etransitivity; [apply length_filter|apply length_concat_zip_with_le].
Qed.

Lemma Qred_fraction_bounds n d :
  0 ≤ n ≤ d → 0 < d →
  (0 <= Qred (inject_Z n / inject_Z d) <= 1)%Q.
Proof.
  intros [H0 Hn] Hd.
  assert (Hdq : (0 < inject_Z d)%Q) by (unfold Qlt; simpl; lia).
  rewrite Qred_correct. split.
  - apply Qle_shift_div_l; [exact Hdq|].
    rewrite Qmult_0_l. unfold Qle. simpl. lia.
  - apply Qle_shift_div_r; [exact Hdq|].
    rewrite Qmult_1_l. rewrite <- Zle_Qle. exact Hn.
Qed.

Lemma Qred_zero_fraction d : Qred (inject_Z 0 / inject_Z d) = 0%Q.
Proof.
  change 0%Q with (Qred 0). apply Qred_complete.
  unfold Qdiv. apply Qmult_0_l.
Qed.

Lemma diff_luma_diag p : diff_luma p p = 0.
Proof.
  unfold diff_luma, px_difference. rewrite !chop_difference_diag. reflexivity.
Qed.

Lemma filter_nonzero_nil (l : list Z) :
  Forall (λ px, px = 0) l → filter (λ px, px ≠ 0) l = [].
Proof.
  induction 1 as [|x l Hx _ IH]; [reflexivity|].
  rewrite filter_cons. case_decide; [contradiction|exact IH].
Qed.

Lemma Forall_zip_with_lookup {A B C} (P : C → Prop) (f : A → B → C) l k :
  (∀ x p q, l !! x = Some p → k !! x = Some q → P (f p q)) →
  Forall P (zip_with f l k).
Proof.
  revert k. induction l as [|p l IH]; intros [|q k] H; simpl; try constructor.
  - apply (H 0%nat); reflexivity.
  - apply IH. intros x p' q' Hp Hq. apply (H (S x)); assumption.
Qed.

Lemma Forall_concat_zip_with_lookup {A B C} (P : C → Prop) (f : A → B → C) ll kk :
  (∀ y x l k p q, ll !! y = Some l → kk !! y = Some k →
                  l !! x = Some p → k !! x = Some q → P (f p q)) →
  Forall P (concat (zip_with (zip_with f) ll kk)).
Proof.
  revert kk. induction ll as [|l ll IH]; intros [|k kk] H; simpl; try constructor.
  apply Forall_app. split.
  - apply Forall_zip_with_lookup. intros x p q Hp Hq.
    apply (H 0%nat x l k); auto.
  - apply IH. intros y x l' k' p q Hl Hk Hp Hq.
    apply (H (S y) x l' k'); auto.
Qed.

Lemma pixel_at_Some {A} (im : raster A) x y p :
  pixel_at im x y = Some p ↔ ∃ row, rows im !! y = Some row ∧ row !! x = Some p.
Proof.
  unfold pixel_at. destruct (rows im !! y) as [row|]; simpl.
  - split; [eauto|]. intros (row' & [= <-] & Hp). exact Hp.
  - split; [discriminate|]. intros (row' & [=] & _).
Qed.

Lemma pixel_at_positive {A} (im : raster A) x y p :
  wf_raster im → pixel_at im x y = Some p → 0 < width im ∧ 0 < height im.
Proof.
  intros (_ & _ & Hh & Hw) (row & Hrow & Hp)%pixel_at_Some.
  pose proof (lookup_lt_Some _ _ _ Hrow).
  pose proof (lookup_lt_Some _ _ _ Hp).
  rewrite Forall_lookup in Hw. specialize (Hw _ _ Hrow). simpl in Hw. lia.
Qed.

Lemma nonzero_count_zero im1 im2 :
  (∀ x y p q, pixel_at im1 x y = Some p → pixel_at im2 x y = Some q →
              diff_luma p q = 0) →
  nonzero_count im1 im2 = 0.
Proof.
  intros H. unfold nonzero_count. rewrite filter_nonzero_nil; [reflexivity|].
  apply Forall_concat_zip_with_lookup. intros y x l k p q Hl Hk Hp Hq.
  apply (H x y); apply pixel_at_Some; eauto.
Qed.

Lemma diff_luma_same_rgb p q : same_rgb p q → diff_luma p q = 0.
Proof.
  intros (HR & HG & HB). unfold diff_luma, px_difference.
  rewrite HR, HG, HB, !chop_difference_diag. reflexivity.
Qed.

Lemma luma_byte_nonzero W :
  32768 ≤ W < 16777216 →
  Z.shiftr W 16 `mod` 256 ≠ 0 ↔ 65536 ≤ W.
Proof.
  intros HW.
  rewrite Z.shiftr_div_pow2 by lia. change (2 ^ 16) with 65536.
  assert (0 ≤ W / 65536 < 256) as Hq.
  { split; [apply Z.div_pos; lia|apply Z.div_lt_upper_bound; lia]. }
  rewrite Z.mod_small by exact Hq.
  split; intros H.
  - destruct (Z_lt_le_dec W 65536) as [Hlt|Hge]; [|exact Hge].
    exfalso. apply H. apply Z.div_small. lia.
  - intros H0. apply Z.div_small_iff in H0; lia.
Qed.

Lemma diff_luma_nonzero_iff p q :
  pixel_ok p → pixel_ok q →
  diff_luma p q ≠ 0 ↔ 32768 ≤ luma_weight p q.
Proof.
  intros (HpR & HpG & HpB & HpA) (HqR & HqG & HqB & HqA).
  unfold diff_luma, rgb2l, L24, luma_weight, px_difference. simpl.
  rewrite !chop_difference_bytes by assumption.
  unfold byte_ok in *.
  set (dR := Z.abs (chR p - chR q)). set (dG := Z.abs (chG p - chG q)).
  set (dB := Z.abs (chB p - chB q)).
  assert (0 ≤ dR ≤ 255 ∧ 0 ≤ dG ≤ 255 ∧ 0 ≤ dB ≤ 255) as (HR & HG & HB)
    by (unfold dR, dG, dB; lia).
  clearbody dR dG dB.
  rewrite luma_byte_nonzero by lia. lia.
Qed.

Lemma luma_weight_channel p q :
  32768 ≤ luma_weight p q → chR p ≠ chR q ∨ chG p ≠ chG q ∨ chB p ≠ chB q.
Proof.
  unfold luma_weight. intros H.
  destruct (decide (chR p = chR q)) as [HR|]; [|auto].
  destruct (decide (chG p = chG q)) as [HG|]; [|auto].
  destruct (decide (chB p = chB q)) as [HB|]; [|auto].
  rewrite HR, HG, HB, !Z.sub_diag in H. lia.
Qed.

Lemma count_row_luma l k :
  Forall pixel_ok l → Forall pixel_ok k →
  length (filter (λ px, px ≠ 0) (zip_with diff_luma l k)) =
  length (filter (λ pq : pixel * pixel, 32768 ≤ luma_weight pq.1 pq.2) (zip l k)).
Proof.
  intros Hl. revert k. induction Hl as [|p l Hp _ IH]; intros k Hk; [reflexivity|].
  destruct Hk as [|q k Hq Hk]; [reflexivity|].
  cbn [zip_with zip]. rewrite !filter_cons. cbn [fst snd].
  pose proof (diff_luma_nonzero_iff p q Hp Hq) as Hiff.
  specialize (IH k Hk).
  destruct (decide (diff_luma p q ≠ 0)) as [H1|H1];
    destruct (decide (32768 ≤ luma_weight p q)) as [H2|H2].
  - cbn [length]. f_equal. exact IH.
  - exfalso. apply H2, Hiff, H1.
  - exfalso. apply H1, Hiff, H2.
  - exact IH.
Qed.

Lemma count_rows_luma ll kk :
  Forall2 (λ l k, length l = length k ∧ Forall pixel_ok l ∧ Forall pixel_ok k) ll kk →
  length (filter (λ px, px ≠ 0) (concat (zip_with (zip_with diff_luma) ll kk))) =
  length (filter (λ pq : pixel * pixel, 32768 ≤ luma_weight pq.1 pq.2)
            (zip (concat ll) (concat kk))).
Proof.
  induction 1 as [|l k ll kk (Hlen & Hl & Hk) _ IH]; [reflexivity|].
  change (zip_with (zip_with diff_luma) (l :: ll) (k :: kk))
    with (zip_with diff_luma l k :: zip_with (zip_with diff_luma) ll kk).
  rewrite !concat_cons.
  rewrite (zip_with_app pair l (concat ll) k (concat kk) Hlen).
  rewrite !filter_app, !length_app. f_equal; [|exact IH].
  apply count_row_luma; assumption.
Qed.

Lemma wf_images_rows im1 im2 :
  wf_image im1 → wf_image im2 → im_size im1 = im_size im2 →
  Forall2 (λ l k, length l = length k ∧ Forall pixel_ok l ∧ Forall pixel_ok k)
          (rows im1) (rows im2).
Proof.
  intros [(_ & _ & Hh1 & Hw1) Hp1] [(_ & _ & Hh2 & Hw2) Hp2] Hs.
  unfold width, height in *. rewrite <- Hs in Hh2, Hw2.
  apply Forall2_same_length_lookup_2; [lia|].
  intros i l k Hl Hk.
  rewrite Forall_lookup in Hw1, Hw2, Hp1, Hp2.
  specialize (Hw1 _ _ Hl). specialize (Hw2 _ _ Hk). simpl in *.
  split; [lia|]. split; eauto.
Qed.

Lemma length_filter_mono {A} (P Q : A → Prop)
    `{∀ x, Decision (P x)} `{∀ x, Decision (Q x)} (l : list A) :
  (∀ x, P x → Q x) → (length (filter P l) ≤ length (filter Q l))%nat.
Proof.
  intros HPQ. induction l as [|x l IH]; [reflexivity|].
  rewrite !filter_cons.
  destruct (decide (P x)) as [HP|HP]; destruct (decide (Q x)) as [HQ|HQ];
    simpl; try lia.
  exfalso. auto.
Qed.

Lemma section_for_labelled fs0 vps items label :
  fs0 !! ref_path label = None →
  Forall2 (section_for fs0) vps items →
  (∀ w h, (label, w, h) ∈ vps → Skipped label (ref_path label) ∈ items) ∧
  (∀ ratio st a r d, Compared label ratio st a r d ∉ items).
Proof.
  intros Hnone. induction 1 as [|[[l w'] h'] item vps items Hitem _ [IH1 IH2]].
  - split; [intros w h Hin; inversion Hin|intros ratio st a r d Hin; inversion Hin].
  - split.
    + intros w h [[= <- <- <-]|Hin]%elem_of_cons.
      * unfold section_for in Hitem. rewrite Hnone in Hitem. subst item. left.
      * right. eauto.
    + intros ratio st a r d [Heq|Hin]%elem_of_cons; [|exact (IH2 _ _ _ _ _ Hin)].
      unfold section_for in Hitem.
      destruct (fs0 !! ref_path l) as [f|] eqn:Hl.
      * destruct Hitem as (a' & r' & ratio' & _ & _ & _ & ->).
        injection Heq as -> _ _ _ _ _. congruence.
      * subst item. discriminate.
Qed.

Lemma for_viewports_completes fs0 vps report σ :
  inputs_kept fs0 σ → Forall (evaluable fs0) vps →
  ∃ σ' report', for_viewports vps report σ = (σ', Ok report').
Proof.
  intros Hk Hvps. revert report σ Hk.
  induction Hvps as [|[[label w] h] vps Hvp _ IH]; intros report σ Hk;
    cbn [for_viewports]; [unfold ret; eauto|].
  destruct Hvp as [(a & Hshot & Hw & Hh) Href].
  assert (∃ σ1 report1, viewport_body (label, w, h) report σ = (σ1, Ok report1))
    as (σ1 & report1 & Hbody).
  { rewrite viewport_body_eq, Hshot, (proj1 Hk label).
    destruct Href as [->|[r ->]]; [eauto|].
    rewrite (mismatch_ratio_normalized a r Hw Hh). eauto. }
  unfold bind. rewrite Hbody. apply IH.
  exact (proj1 (viewport_body_spec fs0 _ _ _ _ _ Hk Hbody)).
Qed.

(** With every viewport evaluable, [main] runs to its end. *)
Lemma main_over_completes vps σ :
  Forall (evaluable (fs σ)) vps → ∃ σ', main_over vps σ = (σ', Ok tt).
Proof.
  intros Hvps. rewrite main_over_eq.
  destruct (for_viewports_completes _ vps [Title] σ (inputs_kept_refl σ) Hvps)
    as (σ1 & report & ->).
  eauto.
Qed.

(** A size mismatch between capture and reference raises nothing: the ratio
    is taken against the resampled reference, the diff against the reference
    as read from disk. *)
Lemma size_mismatch_not_raised label w h report σ a r :
  browser TARGET_URL w h READY_SELECTOR = Ok a →
  0 < width a → 0 < height a →
  fs σ !! ref_path label = Some (FPng r) →
  im_size a ≠ im_size r →
  ∃ ratio,
    mismatch_ratio a r = truediv (nonzero_count a (resample r (im_size a)))
                                 (width a * height a) ∧
    mismatch_ratio a r = Ok ratio ∧
    viewport_body (label, w, h) report σ =
      (compared label a r σ,
       Ok (report ++ [Compared label ratio (decide_status ratio)
                        (actual_path label) (ref_path label) (diff_path label)])).
Proof.
  intros Hshot Hw Hh Href Hne.
  pose proof (mismatch_ratio_normalized a r Hw Hh) as Hratio.
  unfold normalized in Hratio. destruct (decide (im_size a ≠ im_size r)); [|contradiction].
  eexists. split; [|split; [exact Hratio|]].
  - rewrite Hratio. unfold truediv. case_decide; [nia|reflexivity].
  - exact (viewport_body_ratio _ _ _ _ _ _ _ _ Hshot Href Hratio).
Qed.

(** ** Claims about the run *)

(** C1, as amended: when the screenshot of a viewport raises, the exception
    leaves [main]: the world stays as the earlier viewports left it, so that
    viewport's comparison, every later viewport and the report are all
    skipped; no report is written and nothing is printed. *)
Theorem capture_failure_aborts_run vps1 label w h vps2 σ σ1 report e :
  for_viewports vps1 [Title] σ = (σ1, Ok report) →
  browser TARGET_URL w h READY_SELECTOR = Raise e →
  main_over (vps1 ++ (label, w, h) :: vps2) σ = (σ1, Raise e) ∧
  fs σ1 !! report_path = fs σ !! report_path ∧
  ∃ evs, log σ1 = log σ ++ evs ∧
         (Wrote report_path ∉ evs) ∧ (∀ line, Printed line ∉ evs).
Proof.
  intros Hloop Hshot. split; [|split].
  - rewrite main_over_eq, for_viewports_app. unfold bind at 1. rewrite Hloop.
    cbn [for_viewports]. unfold bind at 1.
    rewrite viewport_body_eq, Hshot. reflexivity.
  - destruct (for_viewports_spec _ _ _ _ _ _ (inputs_kept_refl σ) Hloop)
      as ([_ Hrep] & _ & _). exact Hrep.
  - destruct (for_viewports_spec _ _ _ _ _ _ (inputs_kept_refl σ) Hloop)
      as (_ & (evs & Hlog & Hevs) & _).
    exists evs. split; [exact Hlog|].
    exact (artifact_writes_not_report _ _ Hevs).
Qed.

(** C4: the status of a compared viewport is Fail exactly when the ratio
    that [mismatch_ratio] returned for its capture and reference is strictly
    greater than THRESHOLD; a ratio equal to THRESHOLD is Pass. *)
Theorem status_fail_iff_above_threshold l w h report σ σ' label ratio st actual ref diffp :
  viewport_body (l, w, h) report σ =
    (σ', Ok (report ++ [Compared label ratio st actual ref diffp])) →
  (∃ a r, browser TARGET_URL w h READY_SELECTOR = Ok a ∧
          fs σ !! ref_path l = Some (FPng r) ∧
          mismatch_ratio a r = Ok ratio) ∧
  (st = Fail ↔ (THRESHOLD < ratio)%Q) ∧
  ((ratio == THRESHOLD)%Q → st = Pass).
Proof.
  rewrite viewport_body_eq.
  destruct (browser TARGET_URL w h READY_SELECTOR) as [a|e]; [|discriminate].
  destruct (fs σ !! ref_path l) as [[r| |]|]; try discriminate.
  - destruct (mismatch_ratio a r) as [ratio'|e] eqn:Hratio; [|discriminate].
    intros [= _ Hrep]. apply app_inv_head in Hrep.
    injection Hrep as _ -> <- _ _ _.
    split; [eauto|]. split; [apply decide_status_Fail|apply decide_status_at_threshold].
  - intros [= _ Hrep]. apply app_inv_head in Hrep. discriminate.
Qed.

(** C7: a viewport whose reference image is absent is evaluated without an
    exception once its screenshot is taken: only the capture is written, no
    comparison is made and no diff is saved for it in the whole run, and when
    the run ends the report holds a section that marks the viewport as
    skipped and no Pass/Fail section for it. *)
Theorem missing_reference_is_skipped vps σ σ' res label w h :
  (label, w, h) ∈ vps →
  fs σ !! ref_path label = None →
  main_over vps σ = (σ', res) →
  (∀ a report σ0,
     browser TARGET_URL w h READY_SELECTOR = Ok a →
     fs σ0 !! ref_path label = None →
     viewport_body (label, w, h) report σ0 =
       (captured label a σ0, Ok (report ++ [Skipped label (ref_path label)]))) ∧
  (Wrote (diff_path label) ∉ drop (length (log σ)) (log σ')) ∧
  (res = Ok tt →
   ∃ items,
     fs σ' !! report_path = Some (FText (Title :: items ++ [Hints])) ∧
     Skipped label (ref_path label) ∈ items ∧
     ∀ ratio st a r d, Compared label ratio st a r d ∉ items).
Proof.
  intros Hin Hnone. rewrite main_over_eq.
  destruct (for_viewports vps [Title] σ) as [σ1 res1] eqn:Hloop.
  destruct (for_viewports_spec _ _ _ _ _ _ (inputs_kept_refl σ) Hloop)
    as (_ & (evs & Hlog & Hevs) & Hitems).
  pose proof (artifact_writes_no_diff _ _ _ Hnone Hevs) as Hnodiff.
  intros Hmain. split; [|split].
  - intros a report σ0 Hshot Href.
    rewrite viewport_body_eq, Hshot, Href. reflexivity.
  - destruct res1 as [report|e]; injection Hmain as <- <-.
    + unfold reported. cbn [log]. rewrite Hlog, <- app_assoc, drop_app_length.
      intros [Hev|Hev]%elem_of_app; [exact (Hnodiff Hev)|].
      apply elem_of_cons in Hev as [Hev|Hev].
      * apply (report_path_not_diff label). congruence.
      * apply elem_of_cons in Hev as [Hev|Hev]; [discriminate|].
        exact (not_elem_of_nil _ Hev).
    + rewrite Hlog, drop_app_length. exact Hnodiff.
  - intros ->. destruct res1 as [report|e]; [|discriminate].
    injection Hmain as <-.
    destruct (Hitems _ eq_refl) as (items & -> & Hsec).
    destruct (section_for_labelled _ _ _ _ Hnone Hsec) as [Hskip Hnocmp].
    exists items. split; [|split].
    + unfold reported. cbn [fs]. rewrite lookup_insert_eq. reflexivity.
    + exact (Hskip _ _ Hin).
    + exact Hnocmp.
Qed.

(** C8: when [main] ends, the report holds the title, then exactly one
    section per viewport in the order of the registry, whether the viewport
    was compared or skipped, then the hints block; the report file is
    written once, as the last write of the run, and a run that raises
    writes no report at all. *)
Theorem report_written_once_in_registry_order vps σ σ' res :
  main_over vps σ = (σ', res) →
  ∃ evs,
    (Wrote report_path ∉ evs) ∧
    match res with
    | Ok _ =>
        ∃ items,
          Forall2 (section_for (fs σ)) vps items ∧
          fs σ' !! report_path = Some (FText (Title :: items ++ [Hints])) ∧
          log σ' = log σ ++ evs ++
                   [Wrote report_path; Printed ("✅ wrote " +:+ report_path)]
    | Raise _ =>
        log σ' = log σ ++ evs ∧ fs σ' !! report_path = fs σ !! report_path
    end.
Proof.
  rewrite main_over_eq.
  destruct (for_viewports vps [Title] σ) as [σ1 res1] eqn:Hloop.
  destruct (for_viewports_spec _ _ _ _ _ _ (inputs_kept_refl σ) Hloop)
    as ([_ Hrep] & (evs & Hlog & Hevs) & Hitems).
  intros Hmain. exists evs.
  split; [exact (proj1 (artifact_writes_not_report _ _ Hevs))|].
  destruct res1 as [report|e]; injection Hmain as <- <-.
  - destruct (Hitems _ eq_refl) as (items & -> & Hsec).
    exists items. split; [exact Hsec|]. unfold reported. cbn [fs log]. split.
    + rewrite lookup_insert_eq. reflexivity.
    + rewrite Hlog, <- app_assoc. reflexivity.
  - split; [exact Hlog|exact Hrep].
Qed.

(** ** Claims about [mismatch_ratio] *)

(** C3, as amended: for two well-formed images of equal size,
    [mismatch_ratio] is the number of pixels whose colour difference has a
    luma that is not zero, that is, whose weighted difference
    19595 |dR| + 38470 |dG| + 7471 |dB| reaches 32768, over the pixel count.
    Every pixel counted differs in R, G or B; the count is at most the number
    of pixels with a channel difference, and may be less. *)
Theorem mismatch_ratio_counts_luma im1 im2 :
  wf_image im1 → wf_image im2 → im_size im1 = im_size im2 →
  mismatch_ratio im1 im2 =
    truediv (luma_mismatch_count im1 im2) (width im1 * height im1) ∧
  (∀ p q, 32768 ≤ luma_weight p q →
          chR p ≠ chR q ∨ chG p ≠ chG q ∨ chB p ≠ chB q) ∧
  luma_mismatch_count im1 im2 ≤ differing_pixels im1 im2.
Proof.
  intros Hwf1 Hwf2 Hs. split; [|split].
  - rewrite (mismatch_ratio_same_size _ _ Hs). f_equal.
    unfold nonzero_count, luma_mismatch_count, getdata. f_equal.
    apply count_rows_luma, wf_images_rows; assumption.
  - apply luma_weight_channel.
  - unfold luma_mismatch_count, differing_pixels. apply inj_le.
    apply length_filter_mono. intros [p q] Hpq. cbn [fst snd] in *.
    unfold any_channel_differs.
    destruct (luma_weight_channel p q Hpq) as [?|[?|?]]; auto.
Qed.

(** C6: for two images of equal pixel dimensions (no resize is triggered),
    [mismatch_ratio] is symmetric: swapping candidate and reference gives the
    same outcome. *)
Theorem mismatch_ratio_symmetric im1 im2 :
  im_size im1 = im_size im2 →
  mismatch_ratio im1 im2 = mismatch_ratio im2 im1.
Proof.
  intros Hs.
  rewrite (mismatch_ratio_same_size im1 im2 Hs).
  rewrite (mismatch_ratio_same_size im2 im1 (eq_sym Hs)).
  unfold nonzero_count, width, height. rewrite Hs.
  replace (zip_with (zip_with diff_luma) (rows im2) (rows im1))
    with (zip_with (zip_with diff_luma) (rows im1) (rows im2)); [reflexivity|].
  apply zip_with_comm. intros r1 r2. apply zip_with_comm. intros p q.
  unfold diff_luma. rewrite px_difference_comm. reflexivity.
Qed.

(** C5: an image that has pixels, compared with an identical copy of itself,
    has mismatch ratio 0, and with a threshold that is a fraction (not
    negative) the status decided for that ratio is Pass: a viewport whose
    capture and reference are that image gets a Pass section with ratio 0. *)
Theorem identical_images_pass im :
  0 < width im → 0 < height im → (0 <= THRESHOLD)%Q →
  mismatch_ratio im im = Ok 0%Q ∧
  decide_status 0%Q = Pass ∧
  ∀ label w h report σ,
    browser TARGET_URL w h READY_SELECTOR = Ok im →
    fs σ !! ref_path label = Some (FPng im) →
    viewport_body (label, w, h) report σ =
      (compared label im im σ,
       Ok (report ++ [Compared label 0%Q Pass
                        (actual_path label) (ref_path label) (diff_path label)])).
Proof.
  intros Hw Hh HT.
  assert (Hratio : mismatch_ratio im im = Ok 0%Q).
  { rewrite mismatch_ratio_same_size by reflexivity.
    rewrite nonzero_count_zero.
    - unfold truediv. case_decide as Hz; [nia|].
      rewrite Qred_zero_fraction. reflexivity.
    - intros x y p q Hp Hq. rewrite Hp in Hq. injection Hq as <-.
      apply diff_luma_diag. }
  split; [exact Hratio|]. split; [exact (decide_status_zero HT)|].
  intros label w h report σ Hshot Href.
  rewrite (viewport_body_ratio _ _ _ _ _ _ _ _ Hshot Href Hratio).
  rewrite (decide_status_zero HT). reflexivity.
Qed.

(** C9: for a candidate with positive pixel dimensions and any reference,
    [mismatch_ratio] returns a value in the closed interval from 0 to 1: the
    count of mismatched pixels is at most the candidate's pixel count, which
    is the denominator. *)
Theorem mismatch_ratio_in_unit_interval im1 im2 :
  wf_raster im1 → 0 < width im1 → 0 < height im1 →
  ∃ n ratio,
    mismatch_ratio im1 im2 = Ok ratio ∧
    ratio = Qred (inject_Z n / inject_Z (width im1 * height im1)) ∧
    0 ≤ n ≤ width im1 * height im1 ∧
    (0 <= ratio <= 1)%Q.
Proof.
  intros Hwf Hw Hh.
  exists (nonzero_count im1 (normalized im1 im2)). eexists.
  split; [apply mismatch_ratio_normalized; assumption|].
  split; [reflexivity|].
  pose proof (nonzero_count_bounds im1 (normalized im1 im2) Hwf) as Hn.
  split; [exact Hn|].
  apply Qred_fraction_bounds; [exact Hn|nia].
Qed.

(** C10: two equal-sized RGBA images that agree in the R, G and B bands of
    every pixel and differ in the alpha band of at least one pixel have
    mismatch ratio 0, because the luma of the difference does not read alpha;
    with a threshold that is not negative the viewport whose capture and
    reference they are is reported as Pass. *)
Theorem alpha_only_difference_invisible im1 im2 :
  wf_raster im1 →
  im_size im1 = im_size im2 →
  (∀ x y p q, pixel_at im1 x y = Some p → pixel_at im2 x y = Some q → same_rgb p q) →
  (∃ x y p q, pixel_at im1 x y = Some p ∧ pixel_at im2 x y = Some q ∧ chA p ≠ chA q) →
  (0 <= THRESHOLD)%Q →
  mismatch_ratio im1 im2 = Ok 0%Q ∧
  ∀ label w h report σ,
    browser TARGET_URL w h READY_SELECTOR = Ok im1 →
    fs σ !! ref_path label = Some (FPng im2) →
    viewport_body (label, w, h) report σ =
      (compared label im1 im2 σ,
       Ok (report ++ [Compared label 0%Q Pass
                        (actual_path label) (ref_path label) (diff_path label)])).
Proof.
  intros Hwf Hs Hrgb (x & y & p & q & Hp & _ & _) HT.
  destruct (pixel_at_positive _ _ _ _ Hwf Hp) as [Hw Hh].
  assert (Hratio : mismatch_ratio im1 im2 = Ok 0%Q).
  { rewrite (mismatch_ratio_same_size _ _ Hs).
    rewrite nonzero_count_zero.
    - unfold truediv. case_decide as Hz; [nia|].
      rewrite Qred_zero_fraction. reflexivity.
    - intros x' y' p' q' Hp' Hq'. apply diff_luma_same_rgb. eauto. }
  split; [exact Hratio|].
  intros label w h report σ Hshot Href.
  rewrite (viewport_body_ratio _ _ _ _ _ _ _ _ Hshot Href Hratio).
  rewrite (decide_status_zero HT). reflexivity.
Qed.

(** ** What a run leaves on disk *)

Lemma viewport_body_frame label w h report σ σ' res path :
  viewport_body (label, w, h) report σ = (σ', res) →
  path ≠ actual_path label → path ≠ diff_path label →
  fs σ' !! path = fs σ !! path.
Proof.
  rewrite viewport_body_eq. intros Hbody Ha Hd.
  assert (Hcap : ∀ a, fs (captured label a σ) !! path = fs σ !! path).
  { intros a. unfold captured. cbn [fs]. apply lookup_insert_ne. congruence. }
  assert (Hcmp : ∀ a r, fs (compared label a r σ) !! path = fs σ !! path).
  { intros a r. unfold compared. cbn [fs].
    rewrite lookup_insert_ne by congruence. apply Hcap. }
  destruct (browser TARGET_URL w h READY_SELECTOR) as [a|e];
    [|injection Hbody as <- _; reflexivity].
  destruct (fs σ !! ref_path label) as [[r| |]|];
    try (injection Hbody as <- _; apply Hcap).
  destruct (mismatch_ratio a r); injection Hbody as <- _; [apply Hcmp|apply Hcap].
Qed.

Lemma for_viewports_frame vps report σ σ' res path :
  for_viewports vps report σ = (σ', res) →
  (∀ label w h, (label, w, h) ∈ vps →
                path ≠ actual_path label ∧ path ≠ diff_path label) →
  fs σ' !! path = fs σ !! path.
Proof.
  revert report σ. induction vps as [|[[label w] h] vps IH]; intros report σ;
    cbn [for_viewports].
  - unfold ret. intros [= <- _] _. reflexivity.
  - unfold bind.
    destruct (viewport_body (label, w, h) report σ) as [σ1 res1] eqn:Hbody.
    intros Hrest Hpath.
    destruct (Hpath label w h) as [Ha Hd]; [left|].
    rewrite <- (viewport_body_frame _ _ _ _ _ _ _ _ Hbody Ha Hd).
    destruct res1 as [report1|e]; [|injection Hrest as <- _; reflexivity].
    apply (IH _ _ Hrest). intros l w' h' Hin. apply (Hpath l w' h'). right. exact Hin.
Qed.

(** X1: a run writes nothing but the captures and diffs of its viewports and
    the report: every other path, and every reference in particular, holds at
    the end what it held at the start, whether the run ends or raises. *)
Theorem main_writes_only_artifacts vps σ σ' res :
  main_over vps σ = (σ', res) →
  (∀ path,
     (∀ label w h, (label, w, h) ∈ vps →
                   path ≠ actual_path label ∧ path ≠ diff_path label) →
     path ≠ report_path →
     fs σ' !! path = fs σ !! path) ∧
  (∀ label, fs σ' !! ref_path label = fs σ !! ref_path label).
Proof.
  rewrite main_over_eq.
  destruct (for_viewports vps [Title] σ) as [σ1 res1] eqn:Hloop.
  intros Hmain.
  assert (Hframe : ∀ path,
    (∀ label w h, (label, w, h) ∈ vps →
                  path ≠ actual_path label ∧ path ≠ diff_path label) →
    path ≠ report_path → fs σ' !! path = fs σ !! path).
  { intros path Hpath Hrep.
    rewrite <- (for_viewports_frame _ _ _ _ _ _ Hloop Hpath).
    destruct res1 as [report|e]; injection Hmain as <- _; [|reflexivity].
    unfold reported. cbn [fs]. apply lookup_insert_ne. congruence. }
  split; [exact Hframe|].
  intros label. apply Hframe.
  - intros l w h _. split; [apply ref_path_not_actual|apply ref_path_not_diff].
  - apply not_eq_sym, report_path_not_ref.
Qed.

Lemma for_viewports_artifacts fs0 vps report σ σ' report' :
  inputs_kept fs0 σ →
  for_viewports vps report σ = (σ', Ok report') →
  NoDup (map (λ vp : string * Z * Z, vp.1.1) vps) →
  ∀ label w h, (label, w, h) ∈ vps →
    ∃ a, browser TARGET_URL w h READY_SELECTOR = Ok a ∧
         fs σ' !! actual_path label = Some (FPng a) ∧
         match fs0 !! ref_path label with
         | Some (FPng r) => fs σ' !! diff_path label = Some (FPng (difference a r))
         | _ => fs σ' !! diff_path label = fs σ !! diff_path label
         end.
Proof.
  revert report σ. induction vps as [|[[l0 w0] h0] vps IH]; intros report σ Hk;
    cbn [for_viewports map].
  - intros _ _ label w h Hin. inversion Hin.
  - unfold bind.
    destruct (viewport_body (l0, w0, h0) report σ) as [σ1 [report1|e]] eqn:Hbody;
      [|discriminate].
    intros Hrest [Hfresh Hnodup]%NoDup_cons label w h Hin.
    pose proof (proj1 (viewport_body_spec fs0 _ _ _ _ _ Hk Hbody)) as Hk1.
    apply elem_of_cons in Hin as [[= -> -> ->]|Hin].
    + assert (Hkeep : ∀ path, path = actual_path l0 ∨ path = diff_path l0 →
                fs σ' !! path = fs σ1 !! path).
      { intros path Hpath. apply (for_viewports_frame _ _ _ _ _ _ Hrest).
        intros l w' h' Hl.
        assert (l ≠ l0) as Hne.
        { intros ->. apply Hfresh. apply list_elem_of_fmap.
          exists (l0, w', h'). split; [reflexivity|exact Hl]. }
        destruct Hpath as [->| ->]; split.
        - intros H. apply Hne. symmetry. exact (actual_path_inj _ _ H).
        - apply actual_path_not_diff.
        - apply not_eq_sym, actual_path_not_diff.
        - intros H. apply Hne. symmetry. exact (diff_path_inj _ _ H). }
      rewrite !Hkeep by auto.
      rewrite viewport_body_eq in Hbody. rewrite (proj1 Hk l0) in Hbody.
      destruct (browser TARGET_URL w0 h0 READY_SELECTOR) as [a|e]; [|discriminate].
      exists a. split; [reflexivity|].
      destruct (fs0 !! ref_path l0) as [[r| |]|]; try discriminate.
      * destruct (mismatch_ratio a r); [|discriminate].
        injection Hbody as <- _. unfold compared, captured. cbn [fs].
        rewrite lookup_insert_eq.
        rewrite lookup_insert_ne by (apply not_eq_sym, actual_path_not_diff).
        rewrite lookup_insert_eq. auto.
      * injection Hbody as <- _. unfold captured. cbn [fs].
        rewrite lookup_insert_eq.
        rewrite lookup_insert_ne by apply actual_path_not_diff. auto.
    + destruct (IH _ _ Hk1 Hrest Hnodup label w h Hin) as (a & Hshot & Hact & Hdiff).
      exists a. split; [exact Hshot|]. split; [exact Hact|].
      assert (label ≠ l0) as Hne.
      { intros ->. apply Hfresh. apply list_elem_of_fmap.
        exists (l0, w, h). split; [reflexivity|exact Hin]. }
      assert (Hsame : fs σ1 !! diff_path label = fs σ !! diff_path label).
      { apply (viewport_body_frame _ _ _ _ _ _ _ _ Hbody).
        - apply not_eq_sym, actual_path_not_diff.
        - intros H. apply Hne. exact (diff_path_inj _ _ H). }
      destruct (fs0 !! ref_path label) as [[r| |]|]; congruence.
Qed.

(** X2: when a run over viewports with distinct labels ends, the capture of
    every viewport is on disk as the browser rendered it; where the reference
    is there, the diff on disk is the difference of that capture and the
    reference as read; where it is not, the diff path is left as it was. *)
Theorem main_leaves_artifacts vps σ σ' :
  main_over vps σ = (σ', Ok tt) →
  NoDup (map (λ vp : string * Z * Z, vp.1.1) vps) →
  ∀ label w h, (label, w, h) ∈ vps →
    ∃ a, browser TARGET_URL w h READY_SELECTOR = Ok a ∧
         fs σ' !! actual_path label = Some (FPng a) ∧
         match fs σ !! ref_path label with
         | Some (FPng r) => fs σ' !! diff_path label = Some (FPng (difference a r))
         | _ => fs σ' !! diff_path label = fs σ !! diff_path label
         end.
Proof.
  rewrite main_over_eq.
  destruct (for_viewports vps [Title] σ) as [σ1 [report|e]] eqn:Hloop; [|discriminate].
  intros [= <-] Hnodup label w h Hin.
  destruct (for_viewports_artifacts _ _ _ _ _ _ (inputs_kept_refl σ) Hloop Hnodup
              label w h Hin) as (a & Hshot & Hact & Hdiff).
  exists a. split; [exact Hshot|]. unfold reported. cbn [fs].
  rewrite !lookup_insert_ne
    by first [apply report_path_not_actual | apply report_path_not_diff].
  split; [exact Hact|exact Hdiff].
Qed.

(** ** How a run fails, and when it cannot *)

(** X3: a reference that is on disk but is not a decodable image stops the
    run at its viewport: the capture of that viewport is written, then
    [Image.open] raises out of [main]; no later viewport is evaluated and the
    report is not written. *)
Theorem undecodable_reference_aborts_run vps1 label w h vps2 σ σ1 report a f :
  for_viewports vps1 [Title] σ = (σ1, Ok report) →
  browser TARGET_URL w h READY_SELECTOR = Ok a →
  fs σ !! ref_path label = Some f →
  (∀ r, f ≠ FPng r) →
  main_over (vps1 ++ (label, w, h) :: vps2) σ =
    (captured label a σ1, Raise (UnidentifiedImageError (ref_path label))) ∧
  fs (captured label a σ1) !! report_path = fs σ !! report_path.
Proof.
  intros Hloop Hshot Href Hbad.
  destruct (for_viewports_spec _ _ _ _ _ _ (inputs_kept_refl σ) Hloop)
    as ([Hrefs Hrep] & _ & _).
  split.
  - rewrite main_over_eq, for_viewports_app. unfold bind at 1. rewrite Hloop.
    cbn [for_viewports]. unfold bind at 1.
    rewrite viewport_body_eq, Hshot, Hrefs, Href.
    destruct f as [r| |]; [destruct (Hbad r eq_refl)|reflexivity|reflexivity].
  - unfold captured. cbn [fs].
    rewrite lookup_insert_ne by (apply not_eq_sym, report_path_not_actual).
    exact Hrep.
Qed.

(** X4: when the browser delivers a capture with pixels for every viewport
    and every reference is absent or decodable, [main] raises nothing: it
    ends, and the report on disk has one section per viewport. *)
Theorem main_ends_when_viewports_evaluable vps σ :
  Forall (evaluable (fs σ)) vps →
  ∃ σ' items,
    main_over vps σ = (σ', Ok tt) ∧
    fs σ' !! report_path = Some (FText (Title :: items ++ [Hints])) ∧
    length items = length vps.
Proof.
  intros Hvps.
  destruct (for_viewports_completes _ vps [Title] σ (inputs_kept_refl σ) Hvps)
    as (σ1 & report & Hloop).
  destruct (for_viewports_spec _ _ _ _ _ _ (inputs_kept_refl σ) Hloop)
    as (_ & _ & Hitems).
  destruct (Hitems _ eq_refl) as (items & -> & Hsec).
  exists (reported ([Title] ++ items) σ1), items.
  rewrite main_over_eq, Hloop. split; [reflexivity|]. split.
  - unfold reported. cbn [fs]. rewrite lookup_insert_eq. reflexivity.
  - symmetry. exact (Forall2_length _ _ _ Hsec).
Qed.

(** X5: rasters without pixels cannot be compared: for two rasters of the
    same size with a zero dimension the division by the pixel count raises
    ZeroDivisionError, and a viewport whose capture and reference are such
    rasters raises it after the capture is written. *)
Theorem mismatch_ratio_no_pixels im1 im2 :
  im_size im1 = im_size im2 →
  width im1 * height im1 = 0 →
  mismatch_ratio im1 im2 = Raise ZeroDivisionError ∧
  ∀ label w h report σ,
    browser TARGET_URL w h READY_SELECTOR = Ok im1 →
    fs σ !! ref_path label = Some (FPng im2) →
    viewport_body (label, w, h) report σ =
      (captured label im1 σ, Raise ZeroDivisionError).
Proof.
  intros Hs Hz.
  assert (Hratio : mismatch_ratio im1 im2 = Raise ZeroDivisionError).
  { rewrite (mismatch_ratio_same_size _ _ Hs). unfold truediv.
    case_decide; [reflexivity|contradiction]. }
  split; [exact Hratio|].
  intros label w h report σ Hshot Href.
  rewrite viewport_body_eq, Hshot, Href, Hratio. reflexivity.
Qed.

(** X6: comparing a capture that has pixels with a reference of another size
    is comparing it with the reference resampled to the capture's size. *)
Theorem mismatch_ratio_resizes_reference im1 im2 :
  0 < width im1 → 0 < height im1 →
  im_size im1 ≠ im_size im2 →
  mismatch_ratio im1 im2 = mismatch_ratio im1 (resample im2 (im_size im1)).
Proof.
  intros Hw Hh Hne.
  rewrite (mismatch_ratio_normalized im1 im2 Hw Hh).
  rewrite (mismatch_ratio_normalized im1 (resample im2 (im_size im1)) Hw Hh).
  unfold normalized.
  destruct (decide (im_size im1 ≠ im_size im2)) as [_|Heq]; [|contradiction].
  destruct (decide (im_size im1 ≠ im_size (resample im2 (im_size im1)))) as [Hne'|_];
    [|reflexivity].
  exfalso. apply Hne'. symmetry. apply resample_size.
Qed.

(** ** The two ends of the scale *)

Lemma elem_of_zip_with_lookup {A B C} (f : A → B → C) l k x p q :
  l !! x = Some p → k !! x = Some q → f p q ∈ zip_with f l k.
Proof.
  revert k x. induction l as [|p' l IH]; intros [|q' k] [|x]; cbn; try discriminate.
  - intros [= ->] [= ->]. left.
  - intros Hp Hq. right. exact (IH _ _ Hp Hq).
Qed.

Lemma elem_of_concat_zip_with_lookup {A B C} (f : A → B → C) ll kk y x l k p q :
  ll !! y = Some l → kk !! y = Some k → l !! x = Some p → k !! x = Some q →
  f p q ∈ concat (zip_with (zip_with f) ll kk).
Proof.
  revert kk y. induction ll as [|l' ll IH]; intros [|k' kk] [|y]; cbn; try discriminate.
  - intros [= ->] [= ->] Hp Hq. apply elem_of_app. left.
    exact (elem_of_zip_with_lookup f _ _ _ _ _ Hp Hq).
  - intros Hl Hk Hp Hq. apply elem_of_app. right. exact (IH _ _ Hl Hk Hp Hq).
Qed.

Lemma pixel_at_ok im x y p : wf_image im → pixel_at im x y = Some p → pixel_ok p.
Proof.
  intros [_ Hok] (row & Hrow & Hp)%pixel_at_Some.
  rewrite Forall_lookup in Hok. specialize (Hok _ _ Hrow).
  rewrite Forall_lookup in Hok. exact (Hok _ _ Hp).
Qed.

Lemma length_concat_zip_with_rows {A B C} (f : A → B → C) (P : list A → list B → Prop) ll kk :
  Forall2 (λ l k, length l = length k ∧ P l k) ll kk →
  length (concat (zip_with (zip_with f) ll kk)) = length (concat ll).
Proof.
  induction 1 as [|l k ll kk [Hlen _] _ IH]; [reflexivity|].
  cbn [zip_with concat]. rewrite !length_app, IH, length_zip_with. lia.
Qed.

Lemma filter_nonzero_all (l : list Z) :
  Forall (λ px, px ≠ 0) l → filter (λ px, px ≠ 0) l = l.
Proof.
  induction 1 as [|x l Hx _ IH]; [reflexivity|].
  rewrite filter_cons. case_decide; [rewrite IH; reflexivity|contradiction].
Qed.

Lemma Qred_fraction_zero n d :
  0 < d → Qred (inject_Z n / inject_Z d) = 0%Q → n = 0.
Proof.
  intros Hd Hq.
  assert (Heq : (inject_Z n / inject_Z d == 0)%Q) by (rewrite <- Hq, Qred_correct; reflexivity).
  destruct d as [|d|d]; try lia.
  unfold Qeq, Qdiv, Qmult, Qinv, inject_Z in Heq. cbn in Heq. lia.
Qed.

Lemma Qred_fraction_one d : 0 < d → Qred (inject_Z d / inject_Z d) = 1%Q.
Proof.
  intros Hd. change 1%Q with (Qred 1). apply Qred_complete.
  apply Qmult_inv_r. unfold Qeq. cbn. lia.
Qed.

(** X7: for two well-formed images of equal size that have pixels, the
    mismatch ratio is 0 exactly when no pixel pair reaches the luma threshold
    of the comparison: the weighted colour difference stays below 32768 at
    every position. *)
Theorem mismatch_ratio_zero_iff im1 im2 :
  wf_image im1 → wf_image im2 → im_size im1 = im_size im2 →
  0 < width im1 → 0 < height im1 →
  mismatch_ratio im1 im2 = Ok 0%Q ↔
  ∀ x y p q, pixel_at im1 x y = Some p → pixel_at im2 x y = Some q →
             luma_weight p q < 32768.
Proof.
  intros Hwf1 Hwf2 Hs Hw Hh.
  rewrite (mismatch_ratio_same_size _ _ Hs). unfold truediv.
  case_decide as Hz; [nia|]. split.
  - intros [= Hq] x y p q Hp Hq'.
    apply Qred_fraction_zero in Hq; [|nia].
    unfold nonzero_count in Hq.
    assert (Hnil : filter (λ px, px ≠ 0)
                     (concat (zip_with (zip_with diff_luma) (rows im1) (rows im2))) = [])
      by (apply length_zero_iff_nil; lia).
    apply pixel_at_Some in Hp as Hp1. destruct Hp1 as (l & Hl & Hpl).
    apply pixel_at_Some in Hq' as Hq1. destruct Hq1 as (k & Hk & Hqk).
    pose proof (elem_of_concat_zip_with_lookup diff_luma _ _ _ _ _ _ _ _ Hl Hk Hpl Hqk)
      as Hin.
    destruct (Z_lt_le_dec (luma_weight p q) 32768) as [Hlt|Hge]; [exact Hlt|].
    exfalso.
    apply (diff_luma_nonzero_iff p q (pixel_at_ok _ _ _ _ Hwf1 Hp)
             (pixel_at_ok _ _ _ _ Hwf2 Hq')) in Hge.
    assert (diff_luma p q ∈ filter (λ px, px ≠ 0)
              (concat (zip_with (zip_with diff_luma) (rows im1) (rows im2))))
      as Hin' by (apply list_elem_of_filter; auto).
    rewrite Hnil in Hin'. exact (not_elem_of_nil _ Hin').
  - intros Hall. rewrite nonzero_count_zero; [rewrite Qred_zero_fraction; reflexivity|].
    intros x y p q Hp Hq.
    destruct (decide (diff_luma p q = 0)) as [H0|Hn]; [exact H0|].
    apply (diff_luma_nonzero_iff p q (pixel_at_ok _ _ _ _ Hwf1 Hp)
             (pixel_at_ok _ _ _ _ Hwf2 Hq)) in Hn.
    specialize (Hall _ _ _ _ Hp Hq). lia.
Qed.

(** X8: for two well-formed images of equal size that have pixels and whose
    weighted colour difference reaches 32768 at every position, the mismatch
    ratio is 1, and the status is Fail for every THRESHOLD below 1. *)
Theorem mismatch_ratio_all_different im1 im2 :
  wf_image im1 → wf_image im2 → im_size im1 = im_size im2 →
  0 < width im1 → 0 < height im1 →
  (∀ x y p q, pixel_at im1 x y = Some p → pixel_at im2 x y = Some q →
              32768 ≤ luma_weight p q) →
  mismatch_ratio im1 im2 = Ok 1%Q ∧
  ((THRESHOLD < 1)%Q → decide_status 1%Q = Fail).
Proof.
  intros Hwf1 Hwf2 Hs Hw Hh Hall. split; [|apply decide_status_Fail].
  rewrite (mismatch_ratio_same_size _ _ Hs).
  assert (Hcount : nonzero_count im1 im2 = width im1 * height im1).
  { unfold nonzero_count. rewrite filter_nonzero_all.
    - rewrite (length_concat_zip_with_rows _ _ _ _ (wf_images_rows _ _ Hwf1 Hwf2 Hs)).
      apply (length_getdata im1), Hwf1.
    - apply Forall_concat_zip_with_lookup. intros y x l k p q Hl Hk Hp Hq.
      assert (Hp' : pixel_at im1 x y = Some p) by (apply pixel_at_Some; eauto).
      assert (Hq' : pixel_at im2 x y = Some q) by (apply pixel_at_Some; eauto).
      apply (diff_luma_nonzero_iff p q (pixel_at_ok _ _ _ _ Hwf1 Hp')
               (pixel_at_ok _ _ _ _ Hwf2 Hq')).
      exact (Hall _ _ _ _ Hp' Hq'). }
  rewrite Hcount. unfold truediv. case_decide as Hz; [nia|].
  rewrite Qred_fraction_one by nia. reflexivity.
Qed.

End Reviewer.

(** * Across thresholds *)

(** X9: the decision is monotone: a ratio that passes keeps passing when the
    ratio goes down or the threshold goes up. *)
Theorem decide_status_monotone (T1 T2 ratio1 ratio2 : Q) :
  (T1 <= T2)%Q → (ratio2 <= ratio1)%Q →
  decide_status T1 ratio1 = Pass → decide_status T2 ratio2 = Pass.
Proof.
  intros HT Hr Hpass.
  destruct (decide_status T2 ratio2) eqn:Hst; [|reflexivity].
  apply decide_status_Fail in Hst.
  assert (Hfail : decide_status T1 ratio1 = Fail).
  { apply decide_status_Fail.
    apply Qle_lt_trans with T2; [exact HT|].
    apply Qlt_le_trans with ratio2; assumption. }
  congruence.
Qed.

(** * The backend: what a request does to the stored transactions *)

Section BackendFacts.
Import Backend.
Context `{Python}.

Local Abbreviation dict := (gmap string (json float)).

Lemma truthy_dict (d : dict) : d ≠ ∅ → truthy (JDict d) = true.
Proof.
  intros Hne. cbn. destruct (map_to_list d) as [|kv l] eqn:Hl; [|reflexivity].
  apply map_to_list_empty_iff in Hl. contradiction.
Qed.

Lemma has_field_dict (d : dict) field :
  has_field field (JDict d) = Return (bool_decide (is_Some (d !! field))).
Proof. reflexivity. Qed.

Lemma classify_transaction_category (t : dict) c :
  classify_transaction t = Return c → c ∈ CATEGORIES.
Proof.
  unfold classify_transaction, CATEGORIES.
  destruct (default (JStr EmptyString) (t !! "merchant")); try discriminate.
  repeat (match goal with |- context [if ?b then _ else _] => destruct b end);
    intros [= <-]; set_solver.
Qed.

Lemma classify_transaction_merchant (t : dict) v :
  t !! "merchant" = Some v →
  classify_transaction t =
  match v with
  | JStr m => classify_transaction {[ "merchant" := JStr m ]}
  | _ => Throw AttributeError
  end.
Proof.
  intros Hm. unfold classify_transaction. rewrite Hm. cbn [default].
  destruct v; try reflexivity; rewrite lookup_singleton_eq; reflexivity.
Qed.

Lemma stored_lookup (d : dict) n now category key :
  key ≠ "id" → key ≠ "timestamp" → key ≠ "category" →
  stored d n now category !! key = d !! key.
Proof.
  intros H1 H2 H3. unfold stored.
  rewrite !lookup_insert_ne by congruence. reflexivity.
Qed.

Lemma classify_stored (d : dict) n now category :
  classify_transaction (stored d n now category) = classify_transaction d.
Proof.
  unfold classify_transaction. rewrite stored_lookup by discriminate. reflexivity.
Qed.

(** [accept_transaction] on a dict that has both fields, with the rest of
    the handler resolved. *)
Lemma accept_transaction_dict (d : dict) a v now later txs :
  d !! "amount" = Some a → d !! "merchant" = Some v →
  accept_transaction (Return (JDict d)) now later txs =
  match classify_transaction d with
  | Throw e => (txs, [LoggedError e], (500, ErrorBody "Failed to process transaction"))
  | Return category =>
      let t := stored d (length txs) now category in
      match format_2f a with
      | Throw e =>
          (txs ++ [t], [LoggedError e], (500, ErrorBody "Failed to process transaction"))
      | Return amount =>
          match send_imessage_notification later
                  ("üí∞ New " +:+ category +:+ " transaction: $" +:+ amount
                   +:+ " at " +:+ merchant_text (Some v) EmptyString) t with
          | (printed, Throw e) =>
              (txs ++ [t], printed ++ [LoggedError e],
               (500, ErrorBody "Failed to process transaction"))
          | (printed, Return sent) => (txs ++ [t], printed, (201, Accepted t sent))
          end
      end
  end.
Proof.
  intros Ha Hm.
  assert (Hne : d ≠ ∅) by (intros ->; rewrite lookup_empty in Ha; discriminate).
  unfold accept_transaction. rewrite (truthy_dict d Hne). cbn [negb].
  rewrite !has_field_dict, Ha, Hm.
  rewrite !bool_decide_true by eauto.
  set (d2 := <["timestamp" := _]> (<["id" := _]> d)).
  assert (Hcls : classify_transaction d2 = classify_transaction d).
  { unfold classify_transaction, d2.
    rewrite !lookup_insert_ne by discriminate. reflexivity. }
  rewrite Hcls. destruct (classify_transaction d) as [category|e]; [|reflexivity].
  change (<["category" := JStr category]> d2) with (stored d (length txs) now category).
  rewrite !stored_lookup by discriminate. rewrite Ha, Hm.
  change (default JNull (Some a)) with a.
  destruct (format_2f a) as [amount|e]; [|reflexivity].
  destruct (send_imessage_notification _ _ _) as [printed [sent|e]]; reflexivity.
Qed.

Lemma classify_transaction_string (d : dict) m :
  d !! "merchant" = Some (JStr m) → ∃ c, classify_transaction d = Return c.
Proof.
  intros Hm. unfold classify_transaction. rewrite Hm. cbn [default from_option id].
  repeat (match goal with |- context [if ?b then _ else _] => destruct b end); eauto.
Qed.

Lemma classify_transaction_not_string (d : dict) v :
  d !! "merchant" = Some v → (∀ m, v ≠ JStr m) →
  classify_transaction d = Throw AttributeError.
Proof.
  intros Hm Hv. unfold classify_transaction. rewrite Hm. cbn [default from_option id].
  destruct v; try reflexivity. destruct (Hv s eq_refl).
Qed.

(** Every way [accept_transaction] can go: the list is left alone and the
    answer is 400 or 500, or the transaction was stored and the answer is 201
    or 500. *)
Lemma accept_transaction_cases request now later txs :
  let r := accept_transaction request now later txs in
  (r.1.1 = txs ∧ ((r.2.1 = 400 ∧ r.1.2 = []) ∨ r.2 = failure)) ∨
  (∃ (d : dict) a m c,
     request = Return (JDict d) ∧
     d !! "amount" = Some a ∧ d !! "merchant" = Some (JStr m) ∧
     classify_transaction d = Return c ∧
     r.1.1 = txs ++ [stored d (length txs) now c] ∧
     ((∃ sent, r.2 = (201, Accepted (stored d (length txs) now c) sent)) ∨
      r.2 = failure)).
Proof.
  cbn zeta.
  destruct request as [data|e];
    [|left; split; [reflexivity|right; reflexivity]].
  destruct data as [|b|z|x|s|l|d].
  1-6: left; unfold accept_transaction;
       repeat (match goal with
               | |- context [if ?b then _ else _] => destruct b
               | |- context [match has_field ?f ?v with _ => _ end] =>
                   destruct (has_field f v) as [[|]|]
               end);
       (split; [reflexivity|]);
       first [left; split; reflexivity | right; reflexivity].
  destruct (decide (d = ∅)) as [->|Hne].
  { left. split; [reflexivity|]. left. split; reflexivity. }
  destruct (d !! "amount") as [a|] eqn:Ha.
  2:{ left. unfold accept_transaction. rewrite (truthy_dict d Hne). cbn [negb].
      rewrite has_field_dict, Ha, bool_decide_false by (intros [? [=]]).
      split; [reflexivity|]. left. split; reflexivity. }
  destruct (d !! "merchant") as [v|] eqn:Hm.
  2:{ left. unfold accept_transaction. rewrite (truthy_dict d Hne). cbn [negb].
      rewrite !has_field_dict, Ha, Hm, bool_decide_true by eauto.
      rewrite bool_decide_false by (intros [? [=]]).
      split; [reflexivity|]. left. split; reflexivity. }
  rewrite (accept_transaction_dict d a v now later txs Ha Hm).
  destruct (classify_transaction d) as [c|e] eqn:Hc;
    [|left; split; [reflexivity|right; reflexivity]].
  right. exists d, a.
  assert (∃ m, v = JStr m) as [m ->].
  { unfold classify_transaction in Hc. rewrite Hm in Hc. cbn [default from_option id] in Hc.
    destruct v; try discriminate. eauto. }
  exists m, c. split; [reflexivity|]. split; [exact Ha|]. split; [exact Hm|].
  split; [exact Hc|].
  cbn zeta. destruct (format_2f a) as [amount|e];
    [|split; [reflexivity|right; reflexivity]].
  destruct (send_imessage_notification _ _ _) as [printed [sent|e]];
    (split; [reflexivity|]); [left; exists sent; reflexivity|right; reflexivity].
Qed.


(** X11: whatever the request, the transactions already stored stay as they
    are and in place. The answer is 400 with nothing stored, printed or
    logged; or 201 with the transaction of the answer appended; or 500, with
    the list unchanged or one transaction appended. *)
Theorem accept_transaction_keeps_history request now later txs :
  let '(store, effects, (code, answer)) := accept_transaction request now later txs in
  (code = 400 ∧ store = txs ∧ effects = []) ∨
  (code = 201 ∧ ∃ t sent, store = txs ++ [t] ∧ answer = Accepted t sent) ∨
  (code = 500 ∧ answer = ErrorBody "Failed to process transaction" ∧
   (store = txs ∨ ∃ t, store = txs ++ [t])).
Proof.
  pose proof (accept_transaction_cases request now later txs) as Hcases.
  cbn zeta in Hcases.
  destruct (accept_transaction request now later txs) as [[store effects] [code answer]].
  cbn [fst snd] in Hcases.
  destruct Hcases as [[-> [[-> ->]|[= -> ->]]]|(d & a & m & c & _ & _ & _ & _ & -> & Hr)];
    [auto|auto 6|].
  destruct Hr as [[sent [= -> ->]]|[= -> ->]]; [right; left|right; right]; eauto 6.
Qed.

(** X12: a request with an amount that has a two-decimal format and a
    merchant that is a string is answered with 201. The transaction is
    appended with the category of its merchant, its amount and merchant as
    sent, and the id of the request or, without one, txn_ and the new length
    of the list; the notification carries that id, and two lines are
    printed. *)
Theorem accept_transaction_accepted (d : dict) a m text now later txs :
  d !! "amount" = Some a →
  d !! "merchant" = Some (JStr m) →
  format_2f a = Return text →
  ∃ category printed sent,
    let t := stored d (length txs) now category in
    let id := default (JStr ("txn_" +:+ pretty (length txs + 1)%nat)) (d !! "id") in
    classify_transaction d = Return category ∧
    accept_transaction (Return (JDict d)) now later txs =
      (txs ++ [t], printed, (201, Accepted t sent)) ∧
    t !! "category" = Some (JStr category) ∧
    t !! "amount" = Some a ∧
    t !! "merchant" = Some (JStr m) ∧
    t !! "id" = Some id ∧
    n_transaction_id sent = id ∧
    n_status sent = "sent" ∧
    length printed = 2%nat.
Proof.
  intros Ha Hm Htext.
  destruct (classify_transaction_string d m Hm) as [c Hc].
  rewrite (accept_transaction_dict d a _ now later txs Ha Hm), Hc. cbn zeta.
  rewrite Htext.
  assert (Hid : stored d (length txs) now c !! "id" =
                Some (default (JStr ("txn_" +:+ pretty (length txs + 1)%nat)) (d !! "id"))).
  { unfold stored. rewrite !lookup_insert_ne by discriminate.
    apply lookup_insert_eq. }
  unfold send_imessage_notification.
  rewrite stored_lookup by discriminate. rewrite Ha.
  change (default (JInt 0) (Some a)) with a. rewrite Htext.
  do 3 eexists. split; [reflexivity|]. split; [reflexivity|].
  split; [apply lookup_insert_eq|].
  split; [rewrite stored_lookup by discriminate; exact Ha|].
  split; [rewrite stored_lookup by discriminate; exact Hm|].
  split; [exact Hid|].
  split; [cbn [n_transaction_id]; rewrite Hid; reflexivity|].
  split; reflexivity.
Qed.

(** X13: an amount that is there but has no two-decimal format is noticed
    after the transaction is stored: the answer is 500, yet the transaction
    is in the list and the listing counts it. *)
Theorem accept_transaction_unformattable_amount (d : dict) a m e now later txs :
  d !! "amount" = Some a →
  d !! "merchant" = Some (JStr m) →
  format_2f a = Throw e →
  ∃ category,
    let t := stored d (length txs) now category in
    classify_transaction d = Return category ∧
    accept_transaction (Return (JDict d)) now later txs =
      (txs ++ [t], [LoggedError e], (500, ErrorBody "Failed to process transaction")) ∧
    get_transactions (txs ++ [t]) = (200, Listing (S (length txs)) (txs ++ [t])).
Proof.
  intros Ha Hm Hfmt.
  destruct (classify_transaction_string d m Hm) as [c Hc].
  exists c. cbn zeta. split; [exact Hc|]. split.
  - rewrite (accept_transaction_dict d a _ now later txs Ha Hm), Hc. cbn zeta.
    rewrite Hfmt. reflexivity.
  - unfold get_transactions. rewrite length_app. cbn [length].
    replace (length txs + 1)%nat with (S (length txs)) by lia. reflexivity.
Qed.

(** X14: a merchant that is not a string cannot be classified: the answer is
    500, the error is logged and nothing is stored. *)
Theorem accept_transaction_merchant_not_string (d : dict) a v now later txs :
  d !! "amount" = Some a →
  d !! "merchant" = Some v →
  (∀ m, v ≠ JStr m) →
  accept_transaction (Return (JDict d)) now later txs =
    (txs, [LoggedError AttributeError],
     (500, ErrorBody "Failed to process transaction")).
Proof.
  intros Ha Hm Hv.
  rewrite (accept_transaction_dict d a v now later txs Ha Hm).
  rewrite (classify_transaction_not_string d v Hm Hv). reflexivity.
Qed.

Lemma well_stored_stored (d : dict) a m c n now :
  d !! "amount" = Some a → d !! "merchant" = Some (JStr m) →
  classify_transaction d = Return c →
  well_stored (stored d n now c).
Proof.
  intros Ha Hm Hc. exists c, m.
  split; [apply lookup_insert_eq|].
  split; [rewrite stored_lookup by discriminate; exact Hm|].
  split; [rewrite classify_stored; exact Hc|].
  split; [exact (classify_transaction_category d c Hc)|].
  split; [rewrite stored_lookup by discriminate; eauto|].
  unfold stored. split.
  - rewrite !lookup_insert_ne by discriminate. rewrite lookup_insert_eq. eauto.
  - rewrite lookup_insert_ne by discriminate. rewrite lookup_insert_eq. eauto.
Qed.

Lemma serve_well_stored txs c :
  Forall well_stored txs → Forall well_stored (serve txs c).
Proof.
  intros Htxs. destruct c as [request now later| | |]; cbn [serve]; try assumption.
  - pose proof (accept_transaction_cases request now later txs) as Hcases.
    cbn zeta in Hcases.
    destruct Hcases as [[-> _]|(d & a & m & c & _ & Ha & Hm & Hc & -> & _)];
      [exact Htxs|].
    apply Forall_app. split; [exact Htxs|].
    constructor; [|constructor]. exact (well_stored_stored d a m c _ _ Ha Hm Hc).
  - constructor.
Qed.

(** X15: whatever requests the server has answered, every transaction in its
    list has an amount, an id, a timestamp, a merchant that is a string and
    a category that is one of the six and is the classification of that
    merchant. *)
Theorem stored_transactions_well_formed calls : Forall well_stored (after calls).
Proof.
  unfold after.
  assert (Hgen : ∀ txs, Forall well_stored txs → Forall well_stored (foldl serve txs calls)).
  { induction calls as [|c calls IH]; intros txs Htxs; cbn [foldl]; [exact Htxs|].
    apply IH, serve_well_stored, Htxs. }
  apply Hgen. constructor.
Qed.

(** ** The prediction *)

Lemma occurrences_snoc c l x :
  occurrences c (l ++ [x]) =
  if decide (c = x) then S (occurrences c l) else occurrences c l.
Proof.
  unfold occurrences. rewrite filter_app, length_app, filter_cons, filter_nil.
  destruct (decide (x = c)) as [->|Hne]; cbn [length].
  - rewrite decide_True by reflexivity. lia.
  - rewrite decide_False by congruence. lia.
Qed.

Lemma occurrences_not_in c l : c ∉ l → occurrences c l = 0%nat.
Proof.
  intros Hc. unfold occurrences.
  induction l as [|x l IH]; [reflexivity|].
  rewrite filter_cons. apply not_elem_of_cons in Hc as [Hne Hc].
  rewrite decide_False by congruence. exact (IH Hc).
Qed.

Lemma occurrences_in c l : c ∈ l → (1 ≤ occurrences c l)%nat.
Proof.
  unfold occurrences. induction l as [|x l IH]; intros Hc; [inversion Hc|].
  rewrite filter_cons. destruct (decide (x = c)) as [_|Hne]; [cbn; lia|].
  apply elem_of_cons in Hc as [->|Hc]; [contradiction|exact (IH Hc)].
Qed.

Lemma first_seen_snoc l c :
  first_seen (l ++ [c]) =
  if decide (c ∈ first_seen l) then first_seen l else first_seen l ++ [c].
Proof. unfold first_seen. rewrite foldl_app. reflexivity. Qed.

Lemma first_seen_elem l x : x ∈ first_seen l ↔ x ∈ l.
Proof.
  induction l as [|c l IH] using rev_ind; [reflexivity|].
  rewrite first_seen_snoc, elem_of_app, list_elem_of_singleton.
  destruct (decide (c ∈ first_seen l)) as [Hin|Hout].
  - rewrite IH. split; [auto|]. intros [?| ->]; [assumption|]. apply IH, Hin.
  - rewrite elem_of_app, list_elem_of_singleton, IH. reflexivity.
Qed.

Lemma first_seen_NoDup l : NoDup (first_seen l).
Proof.
  induction l as [|c l IH] using rev_ind; [constructor|].
  rewrite first_seen_snoc. destruct (decide (c ∈ first_seen l)) as [Hin|Hout]; [exact IH|].
  apply NoDup_app. split; [exact IH|]. split; [|apply NoDup_singleton].
  intros x Hx Hc. apply list_elem_of_singleton in Hc as ->. contradiction.
Qed.

(** A category listed after another in [first_seen] has not occurred when
    the other occurs first. *)
Lemma first_seen_order l K1 a K2 b :
  first_seen l = K1 ++ a :: K2 → b ∈ K2 →
  ∃ pre post, l = pre ++ a :: post ∧ b ∉ pre.
Proof.
  revert K1 K2. induction l as [|c l IH] using rev_ind; intros K1 K2 Hfs Hb.
  { destruct K1; discriminate. }
  rewrite first_seen_snoc in Hfs.
  destruct (decide (c ∈ first_seen l)) as [Hin|Hout].
  - destruct (IH _ _ Hfs Hb) as (pre & post & -> & Hpre).
    exists pre, (post ++ [c]). rewrite <- app_assoc. auto.
  - destruct K2 as [|k K2 _] using rev_ind; [inversion Hb|].
    rewrite app_comm_cons, app_assoc in Hfs.
    apply app_inj_tail in Hfs as [Hfs <-].
    apply elem_of_app in Hb as [Hb|Hb%list_elem_of_singleton].
    + destruct (IH _ _ Hfs Hb) as (pre & post & -> & Hpre).
      exists pre, (post ++ [c]). rewrite <- app_assoc. auto.
    + subst b.
      assert (a ∈ l) as Ha
        by (apply first_seen_elem; rewrite Hfs; apply elem_of_app; right; left).
      apply list_elem_of_split in Ha as (pre & post & ->).
      exists pre, (post ++ [c]). rewrite <- app_assoc. split; [reflexivity|].
      intros Hc. apply Hout, first_seen_elem, elem_of_app. auto.
Qed.

Lemma bump_counts c (g : string → nat) K :
  NoDup K →
  bump c (map (λ k, (k, g k)) K) =
  if decide (c ∈ K)
  then map (λ k, (k, if decide (k = c) then S (g k) else g k)) K
  else map (λ k, (k, g k)) K ++ [(c, 1%nat)].
Proof.
  induction 1 as [|k K Hk Hnodup IH]; [reflexivity|].
  cbn [map bump]. destruct (String.eqb_spec k c) as [->|Hne].
  - rewrite decide_True by left. rewrite decide_True by reflexivity. f_equal.
    apply map_ext_in. intros k' Hk'. apply list_elem_of_In in Hk'.
    rewrite decide_False; [reflexivity|]. intros ->. contradiction.
  - rewrite IH. rewrite (decide_False (P := k = c)) by exact Hne.
    destruct (decide (c ∈ K)) as [Hin|Hout].
    + rewrite decide_True by (right; exact Hin). reflexivity.
    + rewrite decide_False; [reflexivity|].
      intros [Heq|Hin]%elem_of_cons; [congruence|contradiction].
Qed.

(** [category_counts] holds each category once, in the order first seen,
    with the number of its occurrences. *)
Lemma count_categories_spec l :
  count_categories l = map (λ k, (k, occurrences k l)) (first_seen l).
Proof.
  induction l as [|c l IH] using rev_ind; [reflexivity|].
  unfold count_categories in *. rewrite foldl_app. cbn [foldl]. rewrite IH.
  rewrite (bump_counts c _ _ (first_seen_NoDup l)), first_seen_snoc.
  destruct (decide (c ∈ first_seen l)) as [Hin|Hout].
  - apply map_ext. intros k. rewrite occurrences_snoc. reflexivity.
  - rewrite map_app. cbn [map]. f_equal.
    + apply map_ext_in. intros k Hk. apply list_elem_of_In in Hk.
      rewrite occurrences_snoc, decide_False; [reflexivity|].
      intros ->. contradiction.
    + rewrite occurrences_snoc, decide_True by reflexivity.
      rewrite occurrences_not_in; [reflexivity|].
      intros Hc. apply Hout, first_seen_elem, Hc.
Qed.

Lemma max_key_first_max_from done best rest :
  first_max done best →
  first_max (done ++ rest)
    (foldl (λ best entry : string * nat,
              if (best.2 <? entry.2)%nat then entry else best) best rest).
Proof.
  revert done best. induction rest as [|e rest IH]; intros done best Hmax; cbn [foldl].
  { rewrite app_nil_r. exact Hmax. }
  replace (done ++ e :: rest) with ((done ++ [e]) ++ rest)
    by (rewrite <- app_assoc; reflexivity).
  apply IH. destruct Hmax as (before & after & -> & Hbefore & Hafter).
  destruct (Nat.ltb_spec best.2 e.2) as [Hlt|Hge].
  - exists (before ++ best :: after), []. split; [reflexivity|]. split; [|constructor].
    apply Forall_app. split.
    + eapply Forall_impl; [exact Hbefore|]. cbn. intros; lia.
    + constructor; [exact Hlt|].
      eapply Forall_impl; [exact Hafter|]. cbn. intros; lia.
  - exists before, (after ++ [e]). rewrite <- app_assoc. split; [reflexivity|].
    split; [exact Hbefore|]. apply Forall_app. split; [exact Hafter|].
    constructor; [exact Hge|constructor].
Qed.

Lemma max_key_first_max first rest : first_max (first :: rest) (max_key first rest).
Proof.
  apply (max_key_first_max_from [first] first rest).
  exists [], []. split; [reflexivity|]. split; constructor.
Qed.

(** The most common category of a history that is not empty. *)
Lemma most_common_spec l first rest best :
  count_categories l = first :: rest →
  max_key first rest = best →
  best.2 = occurrences best.1 l ∧
  best.1 ∈ l ∧
  (∀ c, occurrences c l ≤ best.2)%nat ∧
  (∀ c, c ≠ best.1 → occurrences c l = best.2 →
        ∃ pre post, l = pre ++ best.1 :: post ∧ c ∉ pre).
Proof.
  intros Hcounts Hbest.
  pose proof (max_key_first_max first rest) as (before & after & Hsplit & Hbefore & Hafter).
  rewrite Hbest in Hsplit, Hbefore, Hafter.
  rewrite <- Hcounts, count_categories_spec in Hsplit.
  apply fmap_app_inv in Hsplit as (K1 & K' & Hbef & Haft & Hfs).
  symmetry in Haft. apply fmap_cons_inv in Haft as (k & K2 & Hk & Haf & ->).
  assert (Hfst : best.1 = k) by (rewrite Hk; reflexivity).
  assert (Hsnd : best.2 = occurrences k l) by (rewrite Hk; reflexivity).
  assert (Hkl : k ∈ l).
  { apply first_seen_elem. rewrite Hfs. apply elem_of_app. right. left. }
  rewrite Hfst. split; [exact Hsnd|]. split; [exact Hkl|].
  assert (Hle : ∀ c, c ∈ first_seen l → c ≠ k →
            (c ∈ K1 ∧ (occurrences c l < best.2)%nat) ∨
            (c ∈ K2 ∧ (occurrences c l ≤ best.2)%nat)).
  { intros c Hc Hne. rewrite Hfs in Hc.
    apply elem_of_app in Hc as [Hc|Hc].
    - left. split; [exact Hc|]. rewrite Forall_forall in Hbefore.
      refine (Hbefore (c, occurrences c l) _). rewrite Hbef.
      apply (list_elem_of_fmap_2 (λ k, (k, occurrences k l))). exact Hc.
    - apply elem_of_cons in Hc as [->|Hc]; [contradiction|].
      right. split; [exact Hc|]. rewrite Forall_forall in Hafter.
      refine (Hafter (c, occurrences c l) _). rewrite Haf.
      apply (list_elem_of_fmap_2 (λ k, (k, occurrences k l))). exact Hc. }
  split.
  - intros c. destruct (decide (c = k)) as [->|Hne]; [lia|].
    destruct (decide (c ∈ l)) as [Hc|Hc].
    + apply first_seen_elem in Hc. destruct (Hle c Hc Hne) as [[_ ?]|[_ ?]]; lia.
    + rewrite occurrences_not_in by exact Hc. lia.
  - intros c Hne Heq.
    assert (Hc : c ∈ l).
    { destruct (decide (c ∈ l)) as [Hc|Hc]; [exact Hc|].
      rewrite occurrences_not_in in Heq by exact Hc.
      pose proof (occurrences_in k l Hkl). lia. }
    apply first_seen_elem in Hc.
    destruct (Hle c Hc Hne) as [[_ Hlt]|[Hc2 _]]; [lia|].
    exact (first_seen_order l K1 k K2 c Hfs Hc2).
Qed.

Lemma predict_next_purchase_inv (txs : list dict) r :
  txs ≠ [] →
  predict_next_purchase txs = Some r →
  ∃ cats first rest,
    mapM counted_category txs = Some cats ∧
    count_categories cats = first :: rest ∧
    ∀ p, r = Return p →
         predicted_category p = (max_key first rest).1 ∧
         confidence p = ratio_2 (max_key first rest).2 (length txs).
Proof.
  intros Hne. unfold predict_next_purchase.
  destruct txs as [|t txs]; [contradiction|].
  destruct (mapM counted_category (t :: txs)) as [cats|] eqn:Hcats; [|discriminate].
  cbn [mbind option_bind].
  destruct (count_categories cats) as [|first rest] eqn:Hcounts; [discriminate|].
  destruct (max_key first rest) as [c n] eqn:Hmax.
  intros [= <-]. exists cats, first, rest. split; [reflexivity|]. split; [exact Hcounts|].
  intros p. rewrite Hmax.
  match goal with |- context [match ?a with Return _ => _ | Throw _ => _ end] =>
    destruct a end; [|discriminate].
  intros [= <-]. split; reflexivity.
Qed.

(** X16: when the prediction is made on a history that is not empty, its
    category occurs in the history and no category occurs more often; of the
    categories that occur as often, it is the one the history meets first.
    The confidence is the share of its occurrences, rounded. *)
Theorem predicted_category_most_frequent (txs : list dict) p :
  txs ≠ [] →
  predict_next_purchase txs = Some (Return p) →
  ∃ cats,
    mapM counted_category txs = Some cats ∧
    predicted_category p ∈ cats ∧
    (∀ c, occurrences c cats ≤ occurrences (predicted_category p) cats)%nat ∧
    (∀ c, c ≠ predicted_category p →
          occurrences c cats = occurrences (predicted_category p) cats →
          ∃ pre post, cats = pre ++ predicted_category p :: post ∧ c ∉ pre) ∧
    confidence p =
      ratio_2 (occurrences (predicted_category p) cats) (length txs).
Proof.
  intros Hne Hpredict.
  destruct (predict_next_purchase_inv txs _ Hne Hpredict)
    as (cats & first & rest & Hcats & Hcounts & Hp).
  destruct (Hp p eq_refl) as [Hcat Hconf].
  destruct (most_common_spec cats first rest _ Hcounts eq_refl)
    as (Hn & Hin & Hmax & Htie).
  rewrite <- Hcat in Hn, Hin, Htie. rewrite Hn in Hmax, Htie.
  exists cats. split; [exact Hcats|]. split; [exact Hin|]. split; [exact Hmax|].
  split; [exact Htie|]. rewrite Hconf, Hn. reflexivity.
Qed.

Lemma after_well_stored calls : Forall well_stored (after calls).
Proof.
  unfold after.
  assert (Hgen : ∀ txs, Forall well_stored txs → Forall well_stored (foldl serve txs calls)).
  { induction calls as [|c calls IH]; intros txs Htxs; cbn [foldl]; [exact Htxs|].
    apply IH, serve_well_stored, Htxs. }
  apply Hgen. constructor.
Qed.

Lemma counted_category_well_stored (t : dict) :
  well_stored t → ∃ c, counted_category t = Some c ∧ c ∈ CATEGORIES.
Proof.
  intros (c & m & Hc & _ & _ & Hin & _). exists c.
  unfold counted_category. rewrite Hc. auto.
Qed.

Lemma categories_well_stored (txs : list dict) :
  Forall well_stored txs →
  ∃ cats, mapM counted_category txs = Some cats ∧
          Forall (λ c, c ∈ CATEGORIES) cats ∧ length cats = length txs.
Proof.
  induction 1 as [|t txs Ht _ (cats & Hcats & Hall & Hlen)].
  - exists []. repeat split. constructor.
  - destruct (counted_category_well_stored t Ht) as (c & Hc & Hin).
    exists (c :: cats). cbn [mapM]. rewrite Hc, Hcats. cbn.
    split; [reflexivity|]. split; [constructor; assumption|]. lia.
Qed.

Lemma count_categories_nonempty c l : count_categories (c :: l) ≠ [].
Proof.
  rewrite count_categories_spec. intros Hnil. apply fmap_nil_inv in Hnil.
  assert (c ∈ first_seen (c :: l)) as Hc by (apply first_seen_elem; left).
  rewrite Hnil in Hc. inversion Hc.
Qed.

Lemma predict_next_purchase_modelled (txs : list dict) cats :
  mapM counted_category txs = Some cats → length cats = length txs →
  ∃ r, predict_next_purchase txs = Some r.
Proof.
  intros Hcats Hlen. unfold predict_next_purchase.
  destruct txs as [|t txs]; [eauto|]. rewrite Hcats. cbn [mbind option_bind].
  destruct cats as [|c cats]; [discriminate|].
  pose proof (count_categories_nonempty c cats) as Hne.
  destruct (count_categories (c :: cats)) as [|first rest]; [contradiction|].
  destruct (max_key first rest). eauto.
Qed.

Lemma occurrences_le_length c l : (occurrences c l ≤ length l)%nat.
Proof. apply length_filter. Qed.

Lemma occurrences_cons c x l :
  occurrences c (x :: l) =
  if decide (x = c) then S (occurrences c l) else occurrences c l.
Proof.
  unfold occurrences. rewrite filter_cons.
  destruct (decide (x = c)); reflexivity.
Qed.

(** Every entry of a history over the categories [ks] is counted under one
    of them. *)
Lemma length_le_occurrences ks l :
  Forall (λ c, c ∈ ks) l →
  (length l ≤ sum_list (map (λ k, occurrences k l) ks))%nat.
Proof.
  induction 1 as [|x l Hx _ IH]; [cbn; lia|]. cbn [length].
  assert (Hstep : ∀ ks', (sum_list (map (λ k, occurrences k l) ks') ≤
                           sum_list (map (λ k, occurrences k (x :: l)) ks'))%nat ∧
                          (x ∈ ks' →
                           S (sum_list (map (λ k, occurrences k l) ks')) ≤
                           sum_list (map (λ k, occurrences k (x :: l)) ks'))%nat).
  { induction ks' as [|k ks' [IHle IHin]]; [split; [cbn; lia|intros Hin; inversion Hin]|].
    simpl. rewrite (occurrences_cons k x l). split.
    - destruct (decide (x = k)); lia.
    - intros [->|Hin]%elem_of_cons.
      + rewrite decide_True by reflexivity. lia.
      + specialize (IHin Hin). destruct (decide (x = k)); lia. }
  destruct (Hstep ks) as [_ Hin]. specialize (Hin Hx). lia.
Qed.

Lemma sum_list_bounded (f : string → nat) n ks :
  (∀ k, f k ≤ n)%nat → (sum_list (map f ks) ≤ length ks * n)%nat.
Proof.
  intros Hf. induction ks as [|k ks IH]; [cbn; lia|].
  simpl. specialize (Hf k). lia.
Qed.

(** X17: on the list the server holds after any requests, the prediction is
    always within the model, and when it returns on a list that is not
    empty, its category is one of the six and its confidence is the rounded
    share n / len of a count n that is at least a sixth of the list. *)
Theorem prediction_after_requests calls :
  ∃ r,
    predict_next_purchase (after calls) = Some r ∧
    ∀ p, r = Return p → after calls ≠ [] →
      predicted_category p ∈ CATEGORIES ∧
      ∃ n, confidence p = ratio_2 n (length (after calls)) ∧
           (1 ≤ n ≤ length (after calls))%nat ∧
           (length (after calls) ≤ 6 * n)%nat.
Proof.
  destruct (categories_well_stored _ (after_well_stored calls))
    as (cats & Hcats & Hall & Hlen).
  destruct (predict_next_purchase_modelled _ _ Hcats Hlen) as [r Hr].
  exists r. split; [exact Hr|]. intros p -> Hne.
  destruct (predict_next_purchase_inv _ _ Hne Hr)
    as (cats' & first & rest & Hcats' & Hcounts & Hp).
  rewrite Hcats in Hcats'. injection Hcats' as <-.
  destruct (Hp p eq_refl) as [Hcat Hconf].
  destruct (most_common_spec cats first rest _ Hcounts eq_refl)
    as (Hn & Hin & Hmax & _).
  rewrite <- Hcat in Hin. split.
  - rewrite Forall_forall in Hall. exact (Hall _ Hin).
  - exists (max_key first rest).2. split; [exact Hconf|].
    rewrite <- Hlen. split.
    + rewrite Hn. split; [|apply occurrences_le_length].
      apply occurrences_in. rewrite <- Hcat. exact Hin.
    + pose proof (length_le_occurrences CATEGORIES cats Hall) as Hsum.
      pose proof (sum_list_bounded (λ k, occurrences k cats) _ CATEGORIES Hmax) as Hbound.
      change (length CATEGORIES) with 6%nat in Hbound. lia.
Qed.

(** ** Categories, resets and ids *)

Lemma any_in_false words s :
  any_in words s = false ↔ ∀ word, word ∈ words → contains word s = false.
Proof.
  unfold any_in. induction words as [|x words IH]; cbn [existsb].
  - split; [intros _ word Hin; inversion Hin|reflexivity].
  - rewrite orb_false_iff, IH. split.
    + intros [Hx Hwords] word [->|Hin]%elem_of_cons; auto.
    + intros Hall. split; [apply Hall; left|intros word Hin; apply Hall; right; exact Hin].
Qed.

(** X18: a transaction whose merchant is a string is classified as other
    exactly when no keyword of the five lists occurs anywhere in the
    merchant in lower case. *)
Theorem classify_transaction_other_iff (t : dict) m :
  t !! "merchant" = Some (JStr m) →
  classify_transaction t = Return "other" ↔
  ∀ word,
    word ∈ GROCERIES ++ DINING ++ TRANSPORTATION ++ ENTERTAINMENT ++ SHOPPING →
    contains word (lower m) = false.
Proof.
  intros Hm. unfold classify_transaction. rewrite Hm. cbn [default from_option id].
  split.
  - intros Hc word Hin.
    destruct (any_in GROCERIES (lower m)) eqn:H1; [discriminate|].
    destruct (any_in DINING (lower m)) eqn:H2; [discriminate|].
    destruct (any_in TRANSPORTATION (lower m)) eqn:H3; [discriminate|].
    destruct (any_in ENTERTAINMENT (lower m)) eqn:H4; [discriminate|].
    destruct (any_in SHOPPING (lower m)) eqn:H5; [discriminate|].
    rewrite !elem_of_app in Hin.
    destruct Hin as [Hin|[Hin|[Hin|[Hin|Hin]]]];
      [apply (proj1 (any_in_false _ _) H1)|apply (proj1 (any_in_false _ _) H2)
      |apply (proj1 (any_in_false _ _) H3)|apply (proj1 (any_in_false _ _) H4)
      |apply (proj1 (any_in_false _ _) H5)]; exact Hin.
  - intros Hno.
    assert (Hlist : ∀ words,
              (∀ word, word ∈ words →
                 word ∈ GROCERIES ++ DINING ++ TRANSPORTATION ++ ENTERTAINMENT ++ SHOPPING) →
              any_in words (lower m) = false).
    { intros words Hsub. apply any_in_false. intros word Hin. apply Hno, Hsub, Hin. }
    rewrite (Hlist GROCERIES), (Hlist DINING), (Hlist TRANSPORTATION),
      (Hlist ENTERTAINMENT), (Hlist SHOPPING);
      [reflexivity|intros word Hin; rewrite !elem_of_app; auto 6..].
Qed.

(** X19: a reset forgets: after any requests, a reset and more requests, the
    list of transactions is what the later requests alone give, ids
    included. *)
Theorem reset_data_forgets calls more :
  after (calls ++ PostReset :: more) = after more.
Proof.
  unfold after. rewrite foldl_app. cbn [foldl].
  change (serve (foldl serve [] calls) PostReset) with (@nil dict).
  reflexivity.
Qed.

Lemma stored_id (d : dict) n now category :
  d !! "id" = None →
  stored d n now category !! "id" = Some (JStr ("txn_" +:+ pretty (n + 1)%nat)).
Proof.
  intros Hid. unfold stored. rewrite !lookup_insert_ne by discriminate.
  rewrite lookup_insert_eq, Hid. reflexivity.
Qed.

(** X20: when no request brings an id of its own, the transaction at
    position k of the list has the id txn_ and k + 1, whatever requests and
    resets came before; so no two transactions of the list share an id. *)
Theorem generated_ids_number_the_list calls :
  (∀ (d : dict) now later,
     PostTransaction (Return (JDict d)) now later ∈ calls → d !! "id" = None) →
  (∀ k t, after calls !! k = Some t →
          t !! "id" = Some (JStr ("txn_" +:+ pretty (k + 1)%nat))) ∧
  (∀ j k tj tk, after calls !! j = Some tj → after calls !! k = Some tk →
                tj !! "id" = tk !! "id" → j = k).
Proof.
  intros Hown.
  assert (Hids : ∀ k t, after calls !! k = Some t →
                        t !! "id" = Some (JStr ("txn_" +:+ pretty (k + 1)%nat))).
  { unfold after.
    assert (Hgen : ∀ txs : list dict,
              (∀ k t, txs !! k = Some t →
                      t !! "id" = Some (JStr ("txn_" +:+ pretty (k + 1)%nat))) →
              ∀ k t, foldl serve txs calls !! k = Some t →
                     t !! "id" = Some (JStr ("txn_" +:+ pretty (k + 1)%nat))).
    { induction calls as [|c calls IH]; intros txs Htxs; cbn [foldl]; [exact Htxs|].
      apply IH.
      { intros d now later Hin. apply (Hown d now later). right. exact Hin. }
      destruct c as [request now later| | |]; cbn [serve]; try exact Htxs.
      - pose proof (accept_transaction_cases request now later txs) as Hcases.
        cbn zeta in Hcases.
        destruct Hcases as [[-> _]|(d & a & m & c & -> & _ & _ & _ & -> & _)];
          [exact Htxs|].
        intros k t Hk. apply lookup_app_Some in Hk as [Hk|[Hlen Hk]].
        + exact (Htxs k t Hk).
        + apply list_lookup_singleton_Some in Hk as [Hk <-].
          replace k with (length txs) by lia.
          apply stored_id, (Hown d now later). left.
      - intros k t Hk. cbn in Hk. rewrite lookup_nil in Hk. discriminate. }
    apply Hgen. intros k t Hk. rewrite lookup_nil in Hk. discriminate. }
  split; [exact Hids|].
  intros j k tj tk Hj Hk Heq.
  rewrite (Hids j tj Hj), (Hids k tk Hk) in Heq.
  injection Heq as Heq. apply String.app_inj in Heq.
  apply (inj pretty) in Heq. lia.
Qed.

End BackendFacts.

(** * The executor: what the pattern finds *)

Section ExecutorFacts.
Import Executor.
Variable is_space : N → bool.

Lemma starts_with_app literal rest : starts_with literal (literal ++ rest) = true.
Proof.
  induction literal as [|p literal IH]; [reflexivity|].
  cbn. rewrite N.eqb_refl. exact IH.
Qed.

Lemma starts_with_inv literal text :
  starts_with literal text = true → text = literal ++ drop (length literal) text.
Proof.
  revert text. induction literal as [|p literal IH]; intros [|c text]; cbn;
    try discriminate; try reflexivity.
  intros [Hpc Hrest]%andb_prop. apply N.eqb_eq in Hpc as ->.
  f_equal. exact (IH _ Hrest).
Qed.

Lemma split_at_spec literal text before after :
  split_at literal text = Some (before, after) →
  text = before ++ literal ++ after.
Proof.
  revert before. induction text as [|c text IH]; intros before; cbn [split_at].
  - destruct (starts_with literal []) eqn:Hs; [|discriminate].
    intros [= <- <-]. exact (starts_with_inv _ _ Hs).
  - destruct (starts_with literal (c :: text)) eqn:Hs.
    + intros [= <- <-]. exact (starts_with_inv _ _ Hs).
    + destruct (split_at literal text) as [[b a]|]; [|discriminate].
      intros [= <- <-]. cbn. f_equal. exact (IH _ eq_refl).
Qed.

(** Nothing before the place [split_at] finds starts with the literal. *)
Lemma split_at_first literal text before after :
  split_at literal text = Some (before, after) →
  ∀ pre post, before = pre ++ post → post ≠ [] →
              starts_with literal (post ++ literal ++ after) = false.
Proof.
  revert before. induction text as [|c text IH]; intros before; cbn [split_at].
  - destruct (starts_with literal []); [|discriminate].
    intros [= <- <-] pre post Hsplit Hpost.
    destruct pre, post; try discriminate. contradiction.
  - destruct (starts_with literal (c :: text)) eqn:Hs.
    + intros [= <- <-] pre post Hsplit Hpost.
      destruct pre, post; try discriminate. contradiction.
    + destruct (split_at literal text) as [[b a]|] eqn:Hsplit; [|discriminate].
      intros [= <- <-] pre post Hbefore Hpost.
      destruct pre as [|p pre].
      * cbn in Hbefore. subst post. cbn [app].
        rewrite <- (split_at_spec _ _ _ _ Hsplit). exact Hs.
      * injection Hbefore as _ Hb. exact (IH _ eq_refl pre post Hb Hpost).
Qed.

Lemma split_at_found literal before after c0 :
  head literal = Some c0 → Forall (λ c, c ≠ c0) before →
  split_at literal (before ++ literal ++ after) = Some (before, after).
Proof.
  intros Hhead. induction 1 as [|c before Hc _ IH].
  - cbn [app]. destruct (literal ++ after) eqn:Htext.
    + destruct literal; [discriminate|discriminate].
    + cbn [split_at]. rewrite <- Htext, starts_with_app.
      rewrite drop_app_length. reflexivity.
  - cbn [app split_at].
    assert (Hs : starts_with literal (c :: before ++ literal ++ after) = false).
    { destruct literal as [|p literal]; [discriminate|].
      injection Hhead as ->. cbn.
      destruct (N.eqb_spec c0 c) as [->|_]; [contradiction|reflexivity]. }
    rewrite Hs, IH. reflexivity.
Qed.

Lemma split_at_none literal text c0 :
  head literal = Some c0 → Forall (λ c, c ≠ c0) text →
  split_at literal text = None.
Proof.
  intros Hhead. induction 1 as [|c text Hc _ IH]; cbn [split_at].
  - destruct literal; [discriminate|reflexivity].
  - assert (Hs : starts_with literal (c :: text) = false).
    { destruct literal as [|p literal]; [discriminate|].
      injection Hhead as ->. cbn.
      destruct (N.eqb_spec c0 c) as [->|_]; [contradiction|reflexivity]. }
    rewrite Hs, IH. reflexivity.
Qed.

Lemma skip_spaces_suffix text : ∃ spaces, text = spaces ++ skip_spaces is_space text.
Proof.
  induction text as [|c text [spaces IH]]; [exists []; reflexivity|].
  cbn [skip_spaces]. destruct (is_space c).
  - exists (c :: spaces). cbn. f_equal. exact IH.
  - exists []. reflexivity.
Qed.

Lemma skip_spaces_head text c :
  head (skip_spaces is_space text) = Some c → is_space c = false.
Proof.
  induction text as [|c' text IH]; [discriminate|].
  cbn [skip_spaces]. destruct (is_space c') eqn:Hc'; [exact IH|].
  intros [= <-]. exact Hc'.
Qed.

Lemma skip_spaces_app spaces text :
  Forall (λ c, is_space c = true) spaces →
  skip_spaces is_space (spaces ++ text) = skip_spaces is_space text.
Proof.
  induction 1 as [|c spaces Hc _ IH]; [reflexivity|].
  cbn [app skip_spaces]. rewrite Hc. exact IH.
Qed.

Lemma skip_spaces_stop c text :
  is_space c = false → skip_spaces is_space (c :: text) = c :: text.
Proof. intros Hc. cbn [skip_spaces]. rewrite Hc. reflexivity. Qed.

(** Fuel beyond the length of the text changes nothing. *)
Lemma blocks_from_fuel fuel1 fuel2 text :
  (length text ≤ fuel1)%nat → (length text ≤ fuel2)%nat →
  blocks_from is_space fuel1 text = blocks_from is_space fuel2 text.
Proof.
  revert fuel2 text. induction fuel1 as [|fuel1 IH]; intros fuel2 text H1 H2.
  - destruct text; [|cbn in H1; lia]. destruct fuel2; reflexivity.
  - destruct fuel2 as [|fuel2].
    { destruct text; [reflexivity|cbn in H2; lia]. }
    cbn [blocks_from].
    destruct (split_at OPENING text) as [[before after]|] eqn:Hopen; [|reflexivity].
    apply split_at_spec in Hopen as Htext.
    assert (Hlen : length text = (length before + 7 + length after)%nat).
    { rewrite Htext, !length_app. cbn. lia. }
    destruct (split_at CLOSING (skip_spaces is_space after)) as [[block rest]|] eqn:Hclose.
    + apply split_at_spec in Hclose as Hbody.
      destruct (skip_spaces_suffix after) as [spaces Hafter].
      assert (length rest < length after)%nat.
      { rewrite Hafter, Hbody, !length_app. cbn. lia. }
      f_equal. apply IH; lia.
    + apply IH; rewrite length_app; cbn; lia.
Qed.

Lemma skip_spaces_split text :
  ∃ spaces, text = spaces ++ skip_spaces is_space text ∧
            Forall (λ c, is_space c = true) spaces.
Proof.
  induction text as [|c text (spaces & IH & Hspaces)].
  { exists []. split; [reflexivity|constructor]. }
  cbn [skip_spaces]. destruct (is_space c) eqn:Hc.
  - exists (c :: spaces). split; [cbn; f_equal; exact IH|constructor; assumption].
  - exists []. split; [reflexivity|constructor].
Qed.

(** [extract_json_blocks], one match at a time. *)
Lemma extract_json_blocks_step text :
  extract_json_blocks is_space text =
  match split_at OPENING text with
  | None => []
  | Some (_, after) =>
      match split_at CLOSING (skip_spaces is_space after) with
      | Some (block, rest) => block :: extract_json_blocks is_space rest
      | None => extract_json_blocks is_space (tail OPENING ++ after)
      end
  end.
Proof.
  unfold extract_json_blocks. destruct text as [|c text]; [reflexivity|].
  cbn [length blocks_from].
  destruct (split_at OPENING (c :: text)) as [[before after]|] eqn:Hopen; [|reflexivity].
  apply split_at_spec in Hopen as Htext.
  assert (Hlen : S (length text) = (length before + 7 + length after)%nat).
  { change (S (length text)) with (length (c :: text)).
    rewrite Htext, !length_app. cbn. lia. }
  destruct (split_at CLOSING (skip_spaces is_space after)) as [[block rest]|] eqn:Hclose.
  - apply split_at_spec in Hclose as Hbody.
    destruct (skip_spaces_suffix after) as [spaces Hafter].
    assert (length rest < length after)%nat.
    { rewrite Hafter, Hbody, !length_app. cbn. lia. }
    f_equal. apply blocks_from_fuel; lia.
  - apply blocks_from_fuel; rewrite ?length_app; cbn; lia.
Qed.

(** X21: every block [extract_json_blocks] returns stands in the text behind
    an opening fence and the whitespace after it, and before a closing
    fence; the block itself holds no closing fence and does not begin with
    whitespace. *)
Theorem extracted_block_is_fenced text block :
  block ∈ extract_json_blocks is_space text →
  ∃ before spaces after,
    text = before ++ OPENING ++ spaces ++ block ++ CLOSING ++ after ∧
    Forall (λ c, is_space c = true) spaces ∧
    (∀ pre post, block ≠ pre ++ CLOSING ++ post) ∧
    (∀ c, head block = Some c → is_space c = false).
Proof.
  unfold extract_json_blocks. generalize (length text) as fuel. intros fuel.
  revert text. induction fuel as [|fuel IH]; intros text; cbn [blocks_from].
  { intros Hin. inversion Hin. }
  destruct (split_at OPENING text) as [[before after]|] eqn:Hopen;
    [|intros Hin; inversion Hin].
  apply split_at_spec in Hopen as Htext.
  destruct (split_at CLOSING (skip_spaces is_space after)) as [[block0 rest]|] eqn:Hclose.
  - apply split_at_spec in Hclose as Hbody.
    destruct (skip_spaces_split after) as (spaces & Hafter & Hspaces).
    intros [->|Hin]%elem_of_cons.
    + exists before, spaces, rest. split; [|split; [exact Hspaces|split]].
      * rewrite Htext, Hafter, Hbody. reflexivity.
      * intros pre post ->.
        assert (CLOSING ++ post ≠ []) as Hne by discriminate.
        pose proof (split_at_first _ _ _ _ Hclose pre (CLOSING ++ post) eq_refl Hne) as Hs.
        rewrite <- app_assoc, starts_with_app in Hs. discriminate.
      * intros c Hc. apply (skip_spaces_head after). rewrite Hbody.
        destruct block0; [discriminate|exact Hc].
    + destruct (IH _ Hin) as (before' & spaces' & after' & -> & Hrest).
      exists (before ++ OPENING ++ spaces ++ block0 ++ CLOSING ++ before'), spaces', after'.
      split; [|exact Hrest].
      rewrite Htext, Hafter, Hbody, <- !app_assoc. reflexivity.
  - intros Hin. destruct (IH _ Hin) as (before' & spaces' & after' & Hrescan & Hrest).
    exists (before ++ [BACKTICK] ++ before'), spaces', after'. split; [|exact Hrest].
    rewrite Htext. change OPENING with ([BACKTICK] ++ tail OPENING) at 1.
    rewrite <- !app_assoc. do 2 f_equal. rewrite <- Hrescan. reflexivity.
Qed.

(** X22: a fenced block is found as written and the search goes on behind
    it: with prose that holds no backtick, any whitespace after the opening
    fence, and a block that holds no backtick and does not begin with
    whitespace, the blocks of the text are that block and then the blocks of
    what follows the closing fence. *)
Theorem extract_json_blocks_fenced prose spaces block rest :
  is_space BACKTICK = false →
  Forall (λ c, c ≠ BACKTICK) prose →
  Forall (λ c, is_space c = true) spaces →
  Forall (λ c, c ≠ BACKTICK) block →
  (∀ c, head block = Some c → is_space c = false) →
  extract_json_blocks is_space (prose ++ OPENING ++ spaces ++ block ++ CLOSING ++ rest) =
  block :: extract_json_blocks is_space rest.
Proof.
  intros Htick Hprose Hspaces Hblock Hhead.
  rewrite extract_json_blocks_step.
  rewrite (split_at_found OPENING prose _ BACKTICK eq_refl Hprose).
  rewrite (skip_spaces_app spaces _ Hspaces).
  assert (Hstop : skip_spaces is_space (block ++ CLOSING ++ rest) = block ++ CLOSING ++ rest).
  { destruct block as [|c block]; apply skip_spaces_stop; [exact Htick|].
    apply Hhead. reflexivity. }
  rewrite Hstop, (split_at_found CLOSING block rest BACKTICK eq_refl Hblock).
  reflexivity.
Qed.

(** X23: an opening fence that is never closed yields nothing: with no
    backtick before the fence and none after it, no block is returned. *)
Theorem extract_json_blocks_unclosed prose rest :
  Forall (λ c, c ≠ BACKTICK) prose →
  Forall (λ c, c ≠ BACKTICK) rest →
  extract_json_blocks is_space (prose ++ OPENING ++ rest) = [].
Proof.
  intros Hprose Hrest.
  rewrite extract_json_blocks_step.
  rewrite (split_at_found OPENING prose rest BACKTICK eq_refl Hprose).
  assert (Hskipped : Forall (λ c, c ≠ BACKTICK) (skip_spaces is_space rest)).
  { destruct (skip_spaces_suffix rest) as [spaces Hsplit].
    rewrite Hsplit in Hrest. apply Forall_app in Hrest as [_ Hskipped]. exact Hskipped. }
  rewrite (split_at_none CLOSING _ BACKTICK eq_refl Hskipped).
  rewrite extract_json_blocks_step.
  assert (Hnone : split_at OPENING (tail OPENING ++ rest) = None).
  { pose proof (split_at_none OPENING rest BACKTICK eq_refl Hrest) as Hr.
    cbn [tail OPENING app split_at starts_with N.eqb Pos.eqb andb].
    destruct rest as [|c rest']; cbn [starts_with andb]; rewrite ?Hr; reflexivity. }
  rewrite Hnone. reflexivity.
Qed.

End ExecutorFacts.

(** * Examples *)

Lemma resample_nearest_size im s : im_size (resample_nearest im s) = s.
Proof. reflexivity. Qed.

(** The comparison on small inputs. *)

Example mismatch_ratio_half :
  mismatch_ratio resample_nearest half_page white_page = Ok (1 # 2).
Proof. by_evaluation. Qed.

Example mismatch_ratio_resized :
  mismatch_ratio resample_nearest half_page white_dot = Ok (1 # 2).
Proof. by_evaluation. Qed.

Example mismatch_ratio_empty :
  mismatch_ratio resample_nearest (raster_of 0 []) (raster_of 0 []) =
  Raise ZeroDivisionError.
Proof. by_evaluation. Qed.

Example mismatch_ratio_empty_candidate :
  mismatch_ratio resample_nearest (raster_of 0 []) white_dot = Raise ValueError.
Proof. by_evaluation. Qed.

(** Witness of C6. *)
Lemma mismatch_ratio_symmetric_witness :
  im_size half_page = im_size white_page ∧
  mismatch_ratio resample_nearest half_page white_page =
  mismatch_ratio resample_nearest white_page half_page.
Proof.
  split; [reflexivity|].
  apply (mismatch_ratio_symmetric resample_nearest half_page white_page).
  reflexivity.
Defined.

(** Witness of C5. *)
Lemma identical_images_pass_witness :
  0 < width half_page ∧ 0 < height half_page ∧ (0 <= 1 # 100)%Q ∧
  mismatch_ratio resample_nearest half_page half_page = Ok 0%Q ∧
  decide_status (1 # 100) 0%Q = Pass.
Proof.
  assert (Hw : 0 < width half_page) by (vm_compute; reflexivity).
  assert (Hh : 0 < height half_page) by (vm_compute; reflexivity).
  assert (HT : (0 <= 1 # 100)%Q) by (vm_compute; discriminate).
  destruct (identical_images_pass "http://localhost:3000" "body" (1 # 100)
              browser_up resample_nearest half_page Hw Hh HT) as (Hratio & Hst & _).
  exact (conj Hw (conj Hh (conj HT (conj Hratio Hst)))).
Defined.

(** Witness of C9: a reference of another size is resampled first. *)
Lemma mismatch_ratio_in_unit_interval_witness :
  wf_raster half_page ∧ 0 < width half_page ∧ 0 < height half_page ∧
  ∃ n ratio,
    mismatch_ratio resample_nearest half_page white_dot = Ok ratio ∧
    ratio = Qred (inject_Z n / inject_Z (width half_page * height half_page)) ∧
    0 ≤ n ≤ width half_page * height half_page ∧
    (0 <= ratio <= 1)%Q.
Proof.
  assert (Hwf : wf_raster half_page) by wf_by_evaluation.
  assert (Hw : 0 < width half_page) by (vm_compute; reflexivity).
  assert (Hh : 0 < height half_page) by (vm_compute; reflexivity).
  split; [exact Hwf|]. split; [exact Hw|]. split; [exact Hh|].
  exact (mismatch_ratio_in_unit_interval resample_nearest resample_nearest_size
           half_page white_dot Hwf Hw Hh).
Defined.

(** Witness of C10. *)
Lemma alpha_only_difference_invisible_witness :
  wf_raster opaque_dot ∧
  im_size opaque_dot = im_size clear_dot ∧
  (∃ x y p q, pixel_at opaque_dot x y = Some p ∧ pixel_at clear_dot x y = Some q ∧
              chA p ≠ chA q) ∧
  mismatch_ratio resample_nearest opaque_dot clear_dot = Ok 0%Q ∧
  (viewport_body "http://localhost:3000" "body" (1 # 100)
     (λ _ _ _ _, Ok opaque_dot) resample_nearest
     ("desktop", 1440, 900) [Title] (desktop_reference clear_dot)).2 =
  Ok [Title; Compared "desktop" 0%Q Pass (actual_path "desktop")
               (ref_path "desktop") (diff_path "desktop")].
Proof.
  assert (Hwf : wf_raster opaque_dot) by wf_by_evaluation.
  assert (Hs : im_size opaque_dot = im_size clear_dot) by reflexivity.
  assert (Hrgb : ∀ x y p q, pixel_at opaque_dot x y = Some p →
                            pixel_at clear_dot x y = Some q → same_rgb p q).
  { intros [|x] [|y] p q; cbn; try discriminate.
    intros [= <-] [= <-]. repeat split. }
  assert (Ha : ∃ x y p q, pixel_at opaque_dot x y = Some p ∧
                          pixel_at clear_dot x y = Some q ∧ chA p ≠ chA q).
  { exists 0%nat, 0%nat, (Px 10 20 30 255), (Px 10 20 30 0).
    repeat split. cbn. discriminate. }
  assert (HT : (0 <= 1 # 100)%Q) by (vm_compute; discriminate).
  destruct (alpha_only_difference_invisible "http://localhost:3000" "body" (1 # 100)
              (λ _ _ _ _, Ok opaque_dot) resample_nearest opaque_dot clear_dot
              Hwf Hs Hrgb Ha HT) as [Hratio Hbody].
  split; [exact Hwf|]. split; [exact Hs|]. split; [exact Ha|].
  split; [exact Hratio|].
  rewrite (Hbody "desktop" 1440 900 [Title] (desktop_reference clear_dot)
             eq_refl eq_refl).
  reflexivity.
Defined.

(** Counterexample to C3 as stated: a pixel that differs in alpha only, or by
    one step of blue, has a channel difference and is not counted. *)
Lemma mismatch_ratio_not_any_channel :
  wf_image opaque_dot ∧ wf_image clear_dot ∧ wf_image bluer_dot ∧
  im_size opaque_dot = im_size clear_dot ∧
  im_size opaque_dot = im_size bluer_dot ∧
  mismatch_ratio resample_nearest opaque_dot clear_dot = Ok 0%Q ∧
  spec_mismatch_ratio opaque_dot clear_dot = Ok 1%Q ∧
  mismatch_ratio resample_nearest opaque_dot bluer_dot = Ok 0%Q ∧
  spec_mismatch_ratio opaque_dot bluer_dot = Ok 1%Q.
Proof.
  split; [wf_by_evaluation|]. split; [wf_by_evaluation|]. split; [wf_by_evaluation|].
  repeat split; by_evaluation.
Qed.

(** Witness of C3 as amended. *)
Lemma mismatch_ratio_counts_luma_witness :
  wf_image half_page ∧ wf_image white_page ∧ im_size half_page = im_size white_page ∧
  mismatch_ratio resample_nearest half_page white_page =
    truediv (luma_mismatch_count half_page white_page)
            (width half_page * height half_page) ∧
  luma_mismatch_count half_page white_page = 1 ∧
  differing_pixels half_page white_page = 1.
Proof.
  assert (Hwf1 : wf_image half_page) by wf_by_evaluation.
  assert (Hwf2 : wf_image white_page) by wf_by_evaluation.
  assert (Hs : im_size half_page = im_size white_page) by reflexivity.
  destruct (mismatch_ratio_counts_luma resample_nearest half_page white_page
              Hwf1 Hwf2 Hs) as (Hratio & _ & _).
  split; [exact Hwf1|]. split; [exact Hwf2|]. split; [exact Hs|].
  split; [exact Hratio|]. split; by_evaluation.
Defined.

(** The run on small worlds. *)

(** Counterexample to C1 as stated: with the desktop screenshot failing the
    mobile viewport is never captured, and with the mobile screenshot failing
    the desktop viewport, evaluated before it, gets no report: [main] raises
    and no report is written in either run. *)
Lemma capture_failure_stops_main :
  main url ready (1 # 100) (browser_down_at 1440) resample_nearest no_references =
    (no_references, Raise PlaywrightError) ∧
  (main url ready (1 # 100) (browser_down_at 390) resample_nearest no_references).2 =
    Raise PlaywrightError ∧
  log (main url ready (1 # 100) (browser_down_at 390) resample_nearest no_references).1 =
    [Wrote (actual_path "desktop")] ∧
  fs (main url ready (1 # 100) (browser_down_at 390) resample_nearest no_references).1
    !! report_path = None.
Proof. repeat split; by_evaluation. Qed.

(** Witness of C1 as amended. *)
Lemma capture_failure_aborts_run_witness :
  for_viewports url ready (1 # 100) (browser_down_at 390) resample_nearest
    [("desktop", 1440, 900)] [Title] no_references =
    (captured "desktop" half_page no_references,
     Ok [Title; Skipped "desktop" (ref_path "desktop")]) ∧
  browser_down_at 390 url 390 844 ready = Raise PlaywrightError ∧
  main url ready (1 # 100) (browser_down_at 390) resample_nearest no_references =
    (captured "desktop" half_page no_references, Raise PlaywrightError).
Proof.
  assert (Hloop :
    for_viewports url ready (1 # 100) (browser_down_at 390) resample_nearest
      [("desktop", 1440, 900)] [Title] no_references =
      (captured "desktop" half_page no_references,
       Ok [Title; Skipped "desktop" (ref_path "desktop")])) by by_evaluation.
  assert (Hshot : browser_down_at 390 url 390 844 ready = Raise PlaywrightError)
    by by_evaluation.
  split; [exact Hloop|]. split; [exact Hshot|].
  exact (proj1 (capture_failure_aborts_run url ready (1 # 100) (browser_down_at 390)
                  resample_nearest [("desktop", 1440, 900)] "mobile" 390 844 []
                  no_references _ _ PlaywrightError Hloop Hshot)).
Defined.

(** Witness of C4: at a threshold of one half, half the pixels differing is
    a Pass. *)
Lemma status_fail_iff_above_threshold_witness :
  viewport_body url ready (1 # 2) browser_up resample_nearest
    ("desktop", 1440, 900) [Title] (desktop_reference white_page) =
    (compared "desktop" half_page white_page (desktop_reference white_page),
     Ok ([Title] ++ [Compared "desktop" (1 # 2) Pass (actual_path "desktop")
                       (ref_path "desktop") (diff_path "desktop")])) ∧
  (Pass = Fail ↔ (1 # 2 < 1 # 2)%Q) ∧
  ((1 # 2 == 1 # 2)%Q → Pass = Pass).
Proof.
  assert (Hbody :
    viewport_body url ready (1 # 2) browser_up resample_nearest
      ("desktop", 1440, 900) [Title] (desktop_reference white_page) =
      (compared "desktop" half_page white_page (desktop_reference white_page),
       Ok ([Title] ++ [Compared "desktop" (1 # 2) Pass (actual_path "desktop")
                         (ref_path "desktop") (diff_path "desktop")])))
    by by_evaluation.
  split; [exact Hbody|].
  exact (proj2 (status_fail_iff_above_threshold url ready (1 # 2) browser_up
                  resample_nearest _ _ _ _ _ _ _ _ _ _ _ _ Hbody)).
Defined.

Lemma main_desktop_only :
  main url ready (1 # 100) browser_up resample_nearest (desktop_reference half_page) =
  (desktop_only_run, Ok tt).
Proof. by_evaluation. Qed.

(** Witness of C7. *)
Lemma missing_reference_is_skipped_witness :
  ("mobile", 390, 844) ∈ VIEWPORTS ∧
  fs (desktop_reference half_page) !! ref_path "mobile" = None ∧
  (Wrote (diff_path "mobile") ∉
     drop (length (log (desktop_reference half_page))) (log desktop_only_run)) ∧
  ∃ items,
    fs desktop_only_run !! report_path = Some (FText (Title :: items ++ [Hints])) ∧
    Skipped "mobile" (ref_path "mobile") ∈ items ∧
    ∀ ratio st a r d, Compared "mobile" ratio st a r d ∉ items.
Proof.
  assert (Hin : ("mobile", 390, 844) ∈ VIEWPORTS) by (repeat constructor).
  assert (Hnone : fs (desktop_reference half_page) !! ref_path "mobile" = None)
    by by_evaluation.
  destruct (missing_reference_is_skipped url ready (1 # 100) browser_up
              resample_nearest VIEWPORTS (desktop_reference half_page)
              desktop_only_run (Ok tt) "mobile" 390 844 Hin Hnone main_desktop_only)
    as (_ & Hnodiff & Hreport).
  split; [exact Hin|]. split; [exact Hnone|]. split; [exact Hnodiff|].
  exact (Hreport eq_refl).
Defined.

(** Witness of C8. *)
Lemma report_written_once_in_registry_order_witness :
  ∃ evs,
    (Wrote report_path ∉ evs) ∧
    ∃ items,
      Forall2 (section_for url ready (1 # 100) browser_up resample_nearest
                 (fs (desktop_reference half_page))) VIEWPORTS items ∧
      fs desktop_only_run !! report_path = Some (FText (Title :: items ++ [Hints])) ∧
      log desktop_only_run =
        log (desktop_reference half_page) ++ evs ++
        [Wrote report_path; Printed ("✅ wrote " +:+ report_path)].
Proof.
  exact (report_written_once_in_registry_order url ready (1 # 100) browser_up
           resample_nearest VIEWPORTS (desktop_reference half_page)
           desktop_only_run (Ok tt) main_desktop_only).
Defined.

(** C2, on a failing input: the capture is two pixels wide, the reference
    one. The ratio is taken against the resampled reference and finds the
    black pixel (one half, Fail), while the diff that is saved is taken
    against the reference as read: one pixel, all zero, not the two-pixel
    difference with the resampled reference. Nothing is raised. *)
Theorem diff_saved_against_unresized_reference :
  im_size half_page ≠ im_size white_dot ∧
  (viewport_body url ready (1 # 100) browser_up resample_nearest
     ("desktop", 1440, 900) [Title] (desktop_reference white_dot)).2 =
    Ok [Title; Compared "desktop" (1 # 2) Fail (actual_path "desktop")
                 (ref_path "desktop") (diff_path "desktop")] ∧
  fs (viewport_body url ready (1 # 100) browser_up resample_nearest
        ("desktop", 1440, 900) [Title] (desktop_reference white_dot)).1
    !! diff_path "desktop" = Some (FPng (raster_of 1 [[Px 0 0 0 0]])) ∧
  difference half_page (resample_nearest white_dot (im_size half_page)) =
    raster_of 2 [[Px 0 0 0 0; Px 255 255 255 0]].
Proof.
  split; [discriminate|]. repeat split; by_evaluation.
Qed.

(** More of the run on small worlds. *)

Lemma viewport_labels_distinct :
  NoDup (map (λ vp : string * Z * Z, vp.1.1) VIEWPORTS).
Proof.
  cbn. apply NoDup_cons. split; [|apply NoDup_singleton].
  intros Hin. apply elem_of_cons in Hin as [Hin|Hin]; [discriminate|].
  exact (not_elem_of_nil _ Hin).
Qed.

(** Witness of X1: the desktop reference after the run of
    [main_desktop_only]. *)
Lemma main_writes_only_artifacts_witness :
  main url ready (1 # 100) browser_up resample_nearest (desktop_reference half_page) =
    (desktop_only_run, Ok tt) ∧
  fs desktop_only_run !! ref_path "desktop" =
    fs (desktop_reference half_page) !! ref_path "desktop".
Proof.
  split; [exact main_desktop_only|].
  exact (proj2 (main_writes_only_artifacts url ready (1 # 100) browser_up
                  resample_nearest VIEWPORTS (desktop_reference half_page)
                  desktop_only_run (Ok tt) main_desktop_only) "desktop").
Defined.

(** Witness of X2. *)
Lemma main_leaves_artifacts_witness :
  ("desktop", 1440, 900) ∈ VIEWPORTS ∧
  ∃ a, browser_up url 1440 900 ready = Ok a ∧
       fs desktop_only_run !! actual_path "desktop" = Some (FPng a) ∧
       fs desktop_only_run !! diff_path "desktop" =
         Some (FPng (difference a half_page)).
Proof.
  assert (Hin : ("desktop", 1440, 900) ∈ VIEWPORTS) by (repeat constructor).
  split; [exact Hin|].
  exact (main_leaves_artifacts url ready (1 # 100) browser_up resample_nearest
           VIEWPORTS (desktop_reference half_page) desktop_only_run
           main_desktop_only viewport_labels_distinct "desktop" 1440 900 Hin).
Defined.

(** Witness of X3. *)
Lemma undecodable_reference_aborts_run_witness :
  fs broken_desktop_reference !! ref_path "desktop" = Some FOther ∧
  main url ready (1 # 100) browser_up resample_nearest broken_desktop_reference =
    (captured "desktop" half_page broken_desktop_reference,
     Raise (UnidentifiedImageError (ref_path "desktop"))) ∧
  fs (captured "desktop" half_page broken_desktop_reference) !! report_path =
    fs broken_desktop_reference !! report_path.
Proof.
  assert (Href : fs broken_desktop_reference !! ref_path "desktop" = Some FOther)
    by by_evaluation.
  split; [exact Href|].
  apply (undecodable_reference_aborts_run url ready (1 # 100) browser_up
           resample_nearest [] "desktop" 1440 900 [("mobile", 390, 844)]
           broken_desktop_reference broken_desktop_reference [Title] half_page FOther).
  - reflexivity.
  - reflexivity.
  - exact Href.
  - intros r. discriminate.
Defined.

(** Witness of X4. *)
Lemma main_ends_when_viewports_evaluable_witness :
  Forall (evaluable url ready browser_up (fs (desktop_reference half_page))) VIEWPORTS ∧
  ∃ σ' items,
    main url ready (1 # 100) browser_up resample_nearest (desktop_reference half_page) =
      (σ', Ok tt) ∧
    fs σ' !! report_path = Some (FText (Title :: items ++ [Hints])) ∧
    length items = length VIEWPORTS.
Proof.
  assert (Hvps : Forall (evaluable url ready browser_up
                           (fs (desktop_reference half_page))) VIEWPORTS).
  { apply Forall_cons. split.
    - split; [exists half_page; repeat split|right; exists half_page; by_evaluation].
    - apply Forall_cons. split; [|apply Forall_nil_2].
      split; [exists half_page; repeat split|left; by_evaluation]. }
  split; [exact Hvps|].
  exact (main_ends_when_viewports_evaluable url ready (1 # 100) browser_up
           resample_nearest resample_nearest_size VIEWPORTS
           (desktop_reference half_page) Hvps).
Defined.

(** Witness of X5. *)
Lemma mismatch_ratio_no_pixels_witness :
  im_size no_page = im_size no_page ∧ width no_page * height no_page = 0 ∧
  mismatch_ratio resample_nearest no_page no_page = Raise ZeroDivisionError.
Proof.
  split; [reflexivity|]. split; [reflexivity|].
  exact (proj1 (mismatch_ratio_no_pixels url ready (1 # 100) browser_up
                  resample_nearest no_page no_page eq_refl eq_refl)).
Defined.

(** Witness of X6. *)
Lemma mismatch_ratio_resizes_reference_witness :
  0 < width half_page ∧ 0 < height half_page ∧
  im_size half_page ≠ im_size white_dot ∧
  mismatch_ratio resample_nearest half_page white_dot =
  mismatch_ratio resample_nearest half_page
    (resample_nearest white_dot (im_size half_page)).
Proof.
  assert (Hw : 0 < width half_page) by (vm_compute; reflexivity).
  assert (Hh : 0 < height half_page) by (vm_compute; reflexivity).
  assert (Hne : im_size half_page ≠ im_size white_dot) by discriminate.
  split; [exact Hw|]. split; [exact Hh|]. split; [exact Hne|].
  exact (mismatch_ratio_resizes_reference resample_nearest resample_nearest_size
           half_page white_dot Hw Hh Hne).
Defined.

(** Witness of X7: one step of blue is below the threshold of the luma. *)
Lemma mismatch_ratio_zero_iff_witness :
  wf_image opaque_dot ∧ wf_image bluer_dot ∧
  mismatch_ratio resample_nearest opaque_dot bluer_dot = Ok 0%Q ∧
  ∀ x y p q, pixel_at opaque_dot x y = Some p → pixel_at bluer_dot x y = Some q →
             luma_weight p q < 32768.
Proof.
  assert (Hwf1 : wf_image opaque_dot) by wf_by_evaluation.
  assert (Hwf2 : wf_image bluer_dot) by wf_by_evaluation.
  assert (Hw : 0 < width opaque_dot) by (vm_compute; reflexivity).
  assert (Hh : 0 < height opaque_dot) by (vm_compute; reflexivity).
  assert (Hratio : mismatch_ratio resample_nearest opaque_dot bluer_dot = Ok 0%Q)
    by by_evaluation.
  split; [exact Hwf1|]. split; [exact Hwf2|]. split; [exact Hratio|].
  exact (proj1 (mismatch_ratio_zero_iff resample_nearest opaque_dot bluer_dot
                  Hwf1 Hwf2 eq_refl Hw Hh) Hratio).
Defined.

(** Witness of X8. *)
Lemma mismatch_ratio_all_different_witness :
  wf_image white_page ∧ wf_image black_page ∧
  mismatch_ratio resample_nearest white_page black_page = Ok 1%Q ∧
  decide_status (1 # 100) 1%Q = Fail.
Proof.
  assert (Hwf1 : wf_image white_page) by wf_by_evaluation.
  assert (Hwf2 : wf_image black_page) by wf_by_evaluation.
  assert (Hw : 0 < width white_page) by (vm_compute; reflexivity).
  assert (Hh : 0 < height white_page) by (vm_compute; reflexivity).
  assert (Hall : ∀ x y p q, pixel_at white_page x y = Some p →
                            pixel_at black_page x y = Some q →
                            32768 ≤ luma_weight p q).
  { intros [|[|x]] [|y] p q; cbn; try discriminate;
      intros [= <-] [= <-]; vm_compute; discriminate. }
  destruct (mismatch_ratio_all_different (1 # 100) resample_nearest
              white_page black_page Hwf1 Hwf2 eq_refl Hw Hh Hall) as [Hratio Hfail].
  split; [exact Hwf1|]. split; [exact Hwf2|]. split; [exact Hratio|].
  apply Hfail. vm_compute. reflexivity.
Defined.

(** Witness of X9. *)
Lemma decide_status_monotone_witness :
  (1 # 100 <= 1 # 2)%Q ∧ (1 # 200 <= 1 # 100)%Q ∧
  decide_status (1 # 100) (1 # 100) = Pass ∧
  decide_status (1 # 2) (1 # 200) = Pass.
Proof.
  assert (HT : (1 # 100 <= 1 # 2)%Q) by (vm_compute; discriminate).
  assert (Hr : (1 # 200 <= 1 # 100)%Q) by (vm_compute; discriminate).
  assert (Hpass : decide_status (1 # 100) (1 # 100) = Pass) by by_evaluation.
  split; [exact HT|]. split; [exact Hr|]. split; [exact Hpass|].
  exact (decide_status_monotone _ _ _ _ HT Hr Hpass).
Defined.

(** Requests to the backend. *)

Section BackendExamples.
Import Backend.
Local Existing Instance python_for_examples.

Example three_requests_stored :
  after three_requests =
  [stored coffee 0 "2025-11-08T10:30:00" "dining";
   stored groceries 1 "2025-11-08T10:30:00" "groceries";
   stored dinner 2 "2025-11-08T10:30:00" "dining"].
Proof. by_evaluation. Qed.

Example three_requests_predicted :
  predict_next_purchase (after three_requests) =
  Some (Return (Prediction "dining" (JFloat (1975 # 100)) (JFloat (67 # 100))
                  "Based on 3 transactions, dining is your most frequent category")).
Proof. by_evaluation. Qed.

Example coffee_answer :
  (accept_transaction (Return (JDict coffee)) "2025-11-08T10:30:00"
     "2025-11-08T10:30:01" []).2.1 = 201.
Proof. by_evaluation. Qed.


(** Witness of X12. *)
Lemma accept_transaction_accepted_witness :
  groceries !! "amount" = Some (JFloat (1789 # 20)) ∧
  groceries !! "merchant" = Some (JStr "Whole Foods Market") ∧
  format_2f (JFloat (1789 # 20)) = Return "89.45" ∧
  ∃ category printed sent,
    classify_transaction groceries = Return category ∧
    accept_transaction (Return (JDict groceries)) "2025-11-08T10:30:00"
      "2025-11-08T10:30:01" [] =
      ([stored groceries 0 "2025-11-08T10:30:00" category], printed,
       (201, Accepted (stored groceries 0 "2025-11-08T10:30:00" category) sent)) ∧
    n_transaction_id sent = JStr "custom_txn_001".
Proof.
  assert (Ha : groceries !! "amount" = Some (JFloat (1789 # 20))) by by_evaluation.
  assert (Hm : groceries !! "merchant" = Some (JStr "Whole Foods Market"))
    by by_evaluation.
  assert (Hf : format_2f (JFloat (1789 # 20)) = Return "89.45") by by_evaluation.
  split; [exact Ha|]. split; [exact Hm|]. split; [exact Hf|].
  destruct (accept_transaction_accepted (H := python_for_examples) groceries _ _ _ "2025-11-08T10:30:00"
              "2025-11-08T10:30:01" [] Ha Hm Hf)
    as (category & printed & sent & Hc & Haccept & _ & _ & _ & _ & Hid & _).
  exists category, printed, sent. split; [exact Hc|]. split; [exact Haccept|].
  rewrite Hid. reflexivity.
Defined.

(** Witness of X13. *)
Lemma accept_transaction_unformattable_amount_witness :
  text_amount !! "amount" = Some (JStr "ten") ∧
  format_2f (JStr "ten") = Throw ValueError ∧
  ∃ category,
    accept_transaction (Return (JDict text_amount)) "2025-11-08T10:30:00"
      "2025-11-08T10:30:01" [] =
      ([stored text_amount 0 "2025-11-08T10:30:00" category],
       [LoggedError ValueError],
       (500, ErrorBody "Failed to process transaction")).
Proof.
  assert (Ha : text_amount !! "amount" = Some (JStr "ten")) by by_evaluation.
  assert (Hm : text_amount !! "merchant" = Some (JStr "Shell Gas Station"))
    by by_evaluation.
  assert (Hf : format_2f (JStr "ten") = Throw ValueError) by by_evaluation.
  split; [exact Ha|]. split; [exact Hf|].
  destruct (accept_transaction_unformattable_amount (H := python_for_examples) text_amount _ _ _
              "2025-11-08T10:30:00" "2025-11-08T10:30:01" [] Ha Hm Hf)
    as (category & _ & Haccept & _).
  exists category. exact Haccept.
Defined.

(** Witness of X14. *)
Lemma accept_transaction_merchant_not_string_witness :
  numbered_merchant !! "merchant" = Some (JInt 7) ∧
  accept_transaction (Return (JDict numbered_merchant)) "2025-11-08T10:30:00"
    "2025-11-08T10:30:01" [] =
    ([], [LoggedError AttributeError],
     (500, ErrorBody "Failed to process transaction")).
Proof.
  assert (Ha : numbered_merchant !! "amount" = Some (JInt 10)) by by_evaluation.
  assert (Hm : numbered_merchant !! "merchant" = Some (JInt 7)) by by_evaluation.
  split; [exact Hm|].
  apply (accept_transaction_merchant_not_string (H := python_for_examples) numbered_merchant _ _
           "2025-11-08T10:30:00" "2025-11-08T10:30:01" [] Ha Hm).
  intros m. discriminate.
Defined.

(** Witness of X16: dining and groceries tie after two requests, and dining,
    met first, is predicted. *)
Lemma predicted_category_most_frequent_witness :
  after [post coffee; post groceries] ≠ [] ∧
  predict_next_purchase (after [post coffee; post groceries]) =
    Some (Return (Prediction "dining" (JFloat (450 # 100)) (JFloat (50 # 100))
                    "Based on 2 transactions, dining is your most frequent category")) ∧
  ∃ cats,
    mapM counted_category (after [post coffee; post groceries]) = Some cats ∧
    (∀ c, occurrences c cats ≤ occurrences "dining" cats)%nat ∧
    (∀ c, c ≠ "dining" → occurrences c cats = occurrences "dining" cats →
          ∃ pre post, cats = pre ++ "dining" :: post ∧ c ∉ pre).
Proof.
  assert (Hafter : after [post coffee; post groceries] =
                   [stored coffee 0 "2025-11-08T10:30:00" "dining";
                    stored groceries 1 "2025-11-08T10:30:00" "groceries"])
    by by_evaluation.
  assert (Hne : after [post coffee; post groceries] ≠ [])
    by (rewrite Hafter; discriminate).
  assert (Hp : predict_next_purchase (after [post coffee; post groceries]) =
    Some (Return (Prediction "dining" (JFloat (450 # 100)) (JFloat (50 # 100))
                    "Based on 2 transactions, dining is your most frequent category")))
    by by_evaluation.
  split; [exact Hne|]. split; [exact Hp|].
  destruct (predicted_category_most_frequent (H := python_for_examples) _ _ Hne Hp)
    as (cats & Hcats & _ & Hmax & Htie & _).
  exists cats. split; [exact Hcats|]. split; [exact Hmax|exact Htie].
Defined.

(** Witness of X18: the merchant of [coffee]. *)
Lemma classify_transaction_other_iff_witness :
  coffee !! "merchant" = Some (JStr "Starbucks Coffee") ∧
  (classify_transaction coffee = Return "other" ↔
   ∀ word,
     word ∈ GROCERIES ++ DINING ++ TRANSPORTATION ++ ENTERTAINMENT ++ SHOPPING →
     contains word (lower "Starbucks Coffee") = false).
Proof.
  assert (Hm : coffee !! "merchant" = Some (JStr "Starbucks Coffee")) by by_evaluation.
  split; [exact Hm|].
  exact (classify_transaction_other_iff (H := python_for_examples) coffee
           "Starbucks Coffee" Hm).
Defined.

(** Witness of X20: two requests without an id; the second transaction of
    the list is number two. *)
Lemma generated_ids_number_the_list_witness :
  (∀ (d : gmap string (json Q)) now later,
     PostTransaction (Return (JDict d)) now later ∈ [post coffee; post dinner] →
     d !! "id" = None) ∧
  ∃ t, after [post coffee; post dinner] !! 1%nat = Some t ∧
       t !! "id" = Some (JStr ("txn_" +:+ pretty (1 + 1)%nat)).
Proof.
  assert (Hown : ∀ (d : gmap string (json Q)) now later,
            PostTransaction (Return (JDict d)) now later ∈ [post coffee; post dinner] →
            d !! "id" = None).
  { intros d now later Hin.
    apply elem_of_cons in Hin as [Heq|Hin].
    { injection Heq as -> _ _. reflexivity. }
    apply elem_of_cons in Hin as [Heq|Hin].
    { injection Heq as -> _ _. reflexivity. }
    inversion Hin. }
  assert (Hafter : after [post coffee; post dinner] !! 1%nat =
                   Some (stored dinner 1 "2025-11-08T10:30:00" "dining"))
    by by_evaluation.
  split; [exact Hown|].
  destruct (generated_ids_number_the_list (H := python_for_examples) _ Hown) as [Hids _].
  exists (stored (H := python_for_examples) dinner 1 "2025-11-08T10:30:00" "dining").
  split; [exact Hafter|exact (Hids 1%nat _ Hafter)].
Defined.

End BackendExamples.

Section ExecutorExamples.
Import Executor.

(** The reply [plan_text] holds one block, the two characters of an empty
    JSON list. *)
Example plan_text_blocks :
  extract_json_blocks ascii_space plan_text = [[91; 93]%N].
Proof. by_evaluation. Qed.

(** Witness of X21, for the block of [plan_text]. *)
Lemma extracted_block_is_fenced_witness :
  [91; 93]%N ∈ extract_json_blocks ascii_space plan_text ∧
  ∃ before spaces after,
    plan_text = before ++ OPENING ++ spaces ++ [91; 93]%N ++ CLOSING ++ after ∧
    Forall (λ c, ascii_space c = true) spaces ∧
    (∀ pre post, [91; 93]%N ≠ pre ++ CLOSING ++ post) ∧
    (∀ c, head [91; 93]%N = Some c → ascii_space c = false).
Proof.
  assert (Hblocks : extract_json_blocks ascii_space plan_text = [[91; 93]%N])
    by by_evaluation.
  assert (Hin : [91; 93]%N ∈ extract_json_blocks ascii_space plan_text)
    by (rewrite Hblocks; left).
  split; [exact Hin|].
  exact (extracted_block_is_fenced ascii_space plan_text [91; 93]%N Hin).
Defined.

(** Witness of X22: prose, a fence with a line break behind it, an empty
    JSON list, the closing fence and two more characters. *)
Lemma extract_json_blocks_fenced_witness :
  extract_json_blocks ascii_space
    ([115; 101; 101; 10]%N ++ OPENING ++ [10]%N ++ [91; 93]%N ++ CLOSING ++ [111; 107]%N) =
  [91; 93]%N :: extract_json_blocks ascii_space [111; 107]%N.
Proof.
  apply (extract_json_blocks_fenced ascii_space
           [115; 101; 101; 10]%N [10]%N [91; 93]%N [111; 107]%N).
  - reflexivity.
  - each_code_point.
  - each_code_point.
  - each_code_point.
  - intros c Hc. injection Hc as <-. reflexivity.
Defined.

(** Witness of X23: the same reply cut off before the closing fence. *)
Lemma extract_json_blocks_unclosed_witness :
  extract_json_blocks ascii_space
    ([115; 101; 101; 10]%N ++ OPENING ++ [10; 91; 93]%N) = [].
Proof.
  apply (extract_json_blocks_unclosed ascii_space [115; 101; 101; 10]%N [10; 91; 93]%N).
  - each_code_point.
  - each_code_point.
Defined.

End ExecutorExamples.
